(** * Dispatch benchmarks: the inline callable [Function] and the shape scenes

    A shallow embedding of [Strategy_Benchmark.cpp] and [Visitor_Benchmark.cpp].

    - [Vector3D] and its [operator+] use IEEE binary64 numbers
      ([PrimFloat.float]), as the C++ [double] does.
    - The class template [manual_function_solution::Function<R(Args...),N>]
      is modelled over a store of buffers: the payload objects
      placement-constructed into a buffer carry an identity, and every
      construction and destruction is recorded, so that lifetimes can be
      counted.
    - Each solution namespace is a module with its own shape types, its own
      dispatch mechanism and its own [translate]. *)

From Stdlib Require Import Floats.PrimFloat.
From Stdlib Require Floats.SpecFloat Floats.FloatAxioms.
From stdpp Require Import base option list gmap.

Set Default Proof Using "Type".

(* ===================================================================== *)
(** ** Vector3D *)
(* ===================================================================== *)

(** [struct Vector3D { double x{}; double y{}; double z{}; };] *)
Record Vector3D := mkVector3D { x : float; y : float; z : float }.

(** [Vector3D{}]: every component value-initialised to [0.0]. *)
Definition Vector3D_zero : Vector3D := mkVector3D 0%float 0%float 0%float.

(** [Vector3D operator+( const Vector3D& a, const Vector3D& b )] *)
Definition operator_plus (a b : Vector3D) : Vector3D :=
  mkVector3D (x a + x b)%float (y a + y b)%float (z a + z b)%float.

Infix "+v" := operator_plus (at level 50, left associativity).

(* ===================================================================== *)
(** ** The inline callable [Function<R(Args...),N>] *)
(* ===================================================================== *)

Declare Scope M_scope.

Module Function.

(** Addresses of container objects. A container's [buffer] is a member of
    the container, so a buffer is identified by its container. *)
Abbreviation addr := nat (only parsing).

Section Function.
(** The template parameters: the signature [R(Args...)] and the capacity
    [N]. A call receives the argument objects and hands them back as the
    call left them (reference parameters), next to the result. *)
Context {R Args : Type} (N : nat).

(** A payload type [Fn] as the template sees it: its values,
    [sizeof(Fn)], [alignof(Fn)] and its call operator. Payloads are passed
    and stored by value; a value of [Fn] is a Rocq value, and
    copy-initialising an [Fn] from it gives that value (the copy
    constructor of a payload type copies, and returns). The wrapper calls
    the payload through a [const] member function, so a call leaves the
    payload as it was. *)
Record Callable := mkCallable {
  Fn :> Type;
  sizeof : nat;
  alignof : nat;
  call : Fn → Args → R * Args;
}.

(** [class Model<Fn> : public Concept], the wrapper placed in the buffer:
    the payload [fn_] together with the operations of its type (what the
    virtual table of [Model<Fn>] dispatches to). *)
Record Model := mkModel { Fn_of : Callable; fn_ : Fn_of }.

(** [R Model::operator()( Args... args ) const { return fn_( args... ); }] *)
Definition Model_call (m : Model) (args : Args) : R * Args :=
  call (Fn_of m) (fn_ m) args.

(** *** The wrapper in the buffer, in bytes *)

(** [n] rounded up to a multiple of [a]. *)
Definition round_up (n a : nat) : nat := (n + a - 1) / a * a.

(** The virtual-table pointer a [Concept] consists of: 8 bytes, aligned
    to 8, on the 64-bit targets the [8UL] of the buffer is written for. *)
Definition sizeof_vptr : nat := 8.
Definition alignof_vptr : nat := 8.

(** [alignof(Model<Fn>)], the offset of [fn_] in [Model<Fn>] and
    [sizeof(Model<Fn>)], as the C++ ABI of those targets lays a class out:
    the base [Concept] first, then [fn_] at the next multiple of its
    alignment, and the whole rounded up to the alignment of the class. *)
Definition alignof_Model (T : Callable) : nat := max alignof_vptr (alignof T).

Definition offsetof_fn_ (T : Callable) : nat := round_up sizeof_vptr (alignof T).

Definition sizeof_Model (T : Callable) : nat :=
  round_up (offsetof_fn_ T + sizeof T) (alignof_Model T).

(** [char buffer[N+8UL]]: the bytes of the buffer. *)
Definition buffer_size : nat := N + 8.

(** The alignment the buffer is sure of: it is a [char] array that follows
    the pointer [pimpl_] in a class aligned as that pointer is. *)
Definition buffer_alignment : nat := 8.

(** The buffer can hold a [Model<Fn>]: the wrapper ends within the buffer
    and the alignment of the buffer is a multiple of the wrapper's. *)
Definition fits (T : Callable) : bool :=
  bool_decide (sizeof_Model T ≤ buffer_size)
  && bool_decide (alignof_Model T | buffer_alignment).

(** What happened to payload objects so far. *)
Inductive event := Constructed (id : nat) | Destroyed (id : nat).

#[global] Instance event_eq_dec : EqDecision event.
Proof. solve_decision. Defined.

(** A live wrapper object in some buffer. *)
Record object := mkObject { obj_id : nat; obj_model : Model }.

(** The store: the live wrapper object of every buffer that holds one,
    the next unused object identity, and the record of events. *)
Record heap := mkHeap {
  objects : gmap addr object;
  next_id : nat;
  trace : list event;
}.

Definition empty_heap : heap := mkHeap ∅ 0 [].

(** Outcome of running code on a store. [Rejected] is a failed
    [static_assert]: the program is refused and nothing runs.
    [Undefined] is a use of a buffer that holds no live object, a wrapper
    constructed in a buffer that cannot hold it, or a declaration in
    storage a live container occupies. *)
Inductive outcome (A : Type) :=
| Ok (a : A) (h : heap)
| Rejected
| Undefined.
Arguments Ok {A} a h.
Arguments Rejected {A}.
Arguments Undefined {A}.

Definition M (A : Type) := heap → outcome A.

Definition ret {A} (a : A) : M A := λ h, Ok a h.

Definition bind {A B} (c : M A) (k : A → M B) : M B :=
  λ h, match c h with
       | Ok a h' => k a h'
       | Rejected => Rejected
       | Undefined => Undefined
       end.

Local Notation "c1 ;; c2" := (bind c1 (λ _, c2))
  (at level 100, c2 at level 200, right associativity) : M_scope.
Local Open Scope M_scope.

(** [static_assert( cond, ... )] *)
Definition static_assert (cond : bool) : M unit :=
  λ h, if cond then Ok () h else Rejected.

(** [new (memory) Model<Fn>( fn )]: a new wrapper object starts to live
    in the buffer at [memory], when the buffer can hold it; the expression
    itself checks nothing, and a wrapper that ends past the buffer or is
    not aligned in it is undefined. Whatever the buffer held before is
    overwritten without being destroyed. *)
Definition placement_new (memory : addr) (m : Model) : M unit :=
  λ h, if fits (Fn_of m)
       then Ok () (mkHeap (<[memory := mkObject (next_id h) m]> (objects h))
                          (S (next_id h))
                          (trace h ++ [Constructed (next_id h)]))
       else Undefined.

(** [p->~Concept()]: the virtual destructor ends the life of the wrapper
    object at [p] (and of its payload). *)
Definition Concept_dtor (p : addr) : M unit :=
  λ h, match objects h !! p with
       | Some o => Ok () (mkHeap (delete p (objects h)) (next_id h)
                                 (trace h ++ [Destroyed (obj_id o)]))
       | None => Undefined
       end.

(** The virtual call of [Concept::operator()] on the object at [p]. *)
Definition Concept_call (p : addr) (args : Args) : M (R * Args) :=
  λ h, match objects h !! p with
       | Some o => Ok (Model_call (obj_model o) args) h
       | None => Undefined
       end.

(** [void Model::clone( Concept* memory ) const { new (memory) Model( fn_ ); }] *)
Definition Model_clone (m : Model) (memory : addr) : M unit :=
  placement_new memory (mkModel (Fn_of m) (fn_ m)).

(** [p->clone( memory )]: virtual call of [Concept::clone]. *)
Definition Concept_clone (p : addr) (memory : addr) : M unit :=
  λ h, match objects h !! p with
       | Some o => Model_clone (obj_model o) memory h
       | None => Undefined
       end.

(** The address of [buffer], the array of [buffer_size] bytes in the
    container at [this]. *)
Definition buffer (this : addr) : addr := this.

(** [pimpl_{ reinterpret_cast<Concept*>( buffer ) }]: every constructor
    sets [pimpl_] to the container's own buffer and nothing changes it. *)
Definition pimpl_ (this : addr) : addr := buffer this.

(** [template< typename Fn > Function( Fn fn )] *)
Definition Function_ctor (this : addr) (T : Callable) (fn : T) : M unit :=
  static_assert (bool_decide (sizeof T ≤ N)) ;;
  placement_new (pimpl_ this) (mkModel T fn).

(** [Function( Function const& f )] *)
Definition Function_copy_ctor (this : addr) (f : addr) : M unit :=
  Concept_clone (pimpl_ f) (pimpl_ this).

(** [~Function() { pimpl_->~Concept(); }] *)
Definition Function_dtor (this : addr) : M unit :=
  Concept_dtor (pimpl_ this).

(** [Function& operator=( Function f )], the body: [f] is the parameter
    object. *)
Definition operator_assign (this : addr) (f : addr) : M unit :=
  Concept_dtor (pimpl_ this) ;;
  Concept_clone (pimpl_ f) (pimpl_ this).

(** [R operator()( Args... args )]: calls the object [pimpl_] points to
    with the arguments forwarded. *)
Definition operator_call (this : addr) (args : Args) : M (R * Args) :=
  Concept_call (pimpl_ this) args.

(** The expression [c2 = c1]. [operator=] takes its parameter by value:
    the parameter object [f] is a container of its own, in storage no
    live container occupies, copy-constructed from [c1] before the body
    runs and destroyed after it. *)
Definition assign (c2 c1 : addr) : M unit :=
  λ h, let f := fresh (dom (objects h)) in
       (Function_copy_ctor f c1 ;;
        operator_assign c2 f ;;
        Function_dtor f) h.

(** *** Programs over containers *)

(** The statements a client of [Function] writes. *)
Inductive stmt :=
| Construct (c : addr) (T : Callable) (fn : T)   (* Function c( fn );  *)
| CopyConstruct (c2 c1 : addr)                   (* Function c2( c1 ); *)
| Assign (c2 c1 : addr)                          (* c2 = c1;           *)
| Invoke (c : addr) (args : Args)                (* c( args... );      *)
| Destruct (c : addr).                           (* c leaves its scope *)

(** A declaration creates a container in storage that holds no live
    container. *)
Definition declare (c : addr) : M unit :=
  λ h, match objects h !! c with
       | None => Ok () h
       | Some _ => Undefined
       end.

Definition exec_stmt (s : stmt) : M unit :=
  match s with
  | Construct c T fn => declare c ;; Function_ctor c T fn
  | CopyConstruct c2 c1 => declare c2 ;; Function_copy_ctor c2 c1
  | Assign c2 c1 => assign c2 c1
  | Invoke c args => operator_call c args ;; ret ()
  | Destruct c => Function_dtor c
  end.

Fixpoint exec (p : list stmt) : M unit :=
  match p with
  | [] => ret ()
  | s :: p' => exec_stmt s ;; exec p'
  end.

(** *** Observations *)

(** The container at [c] holds the live payload [m]. *)
Definition holds (h : heap) (c : addr) (m : Model) : Prop :=
  obj_model <$> objects h !! pimpl_ c = Some m.

Definition live (h : heap) (c : addr) : Prop := is_Some (objects h !! pimpl_ c).

(** How often the payload object [id] was constructed and destroyed. *)
Definition constructions (h : heap) (id : nat) : nat :=
  length (filter (.= Constructed id) (trace h)).
Definition destructions (h : heap) (id : nat) : nat :=
  length (filter (.= Destroyed id) (trace h)).

(** *** Well-formed stores *)

(** The store after one more construction into the buffer [q], and
    after the destruction of the object [o] in the buffer [p]. *)
Definition constructed_in (h : heap) (q : addr) (m : Model) : heap :=
  mkHeap (<[q := mkObject (next_id h) m]> (objects h))
         (S (next_id h)) (trace h ++ [Constructed (next_id h)]).

Definition destroyed_in (h : heap) (p : addr) (o : object) : heap :=
  mkHeap (delete p (objects h)) (next_id h) (trace h ++ [Destroyed (obj_id o)]).

(** The store [c2 = c1] leaves when [c1] holds [o1] and [c2] holds [o2]:
    the parameter object is constructed from [c1], the payload of [c2] is
    destroyed, the parameter's payload is cloned into [c2], and the
    parameter object is destroyed. *)
Definition assigned (h : heap) (c2 : addr) (o1 o2 : object) : heap :=
  let f := fresh (dom (objects h)) in
  let m := obj_model o1 in
  destroyed_in
    (constructed_in (destroyed_in (constructed_in h f m) c2 o2) c2 m)
    f (mkObject (next_id h) m).

(** The payload object [id] is live: some buffer holds it. *)
Definition live_object (h : heap) (id : nat) : Prop :=
  ∃ p o, objects h !! p = Some o ∧ obj_id o = id.

(** Bookkeeping of a store no payload has leaked from and none was
    destroyed twice in: identities below [next_id] were each constructed
    once, distinct buffers hold distinct objects, a live object was never
    destroyed, an object that is no longer live was destroyed exactly
    once, and no object more than once. *)
Record consistent (h : heap) : Prop := mkConsistent {
  ids_bounded : ∀ p o, objects h !! p = Some o → obj_id o < next_id h;
  ids_distinct : ∀ p q o o',
    objects h !! p = Some o → objects h !! q = Some o' →
    obj_id o = obj_id o' → p = q;
  constructed_once : ∀ id, id < next_id h → constructions h id = 1;
  constructed_future : ∀ id, next_id h ≤ id → constructions h id = 0;
  destroyed_live : ∀ p o, objects h !! p = Some o → destructions h (obj_id o) = 0;
  destroyed_dead : ∀ id,
    id < next_id h → ¬ live_object h id → destructions h id = 1;
  destroyed_future : ∀ id, next_id h ≤ id → destructions h id = 0;
  destroyed_at_most_once : ∀ id, destructions h id ≤ 1;
}.

(** Every stored payload respects the capacity. *)
Definition within_capacity (h : heap) : Prop :=
  ∀ p o, objects h !! p = Some o → sizeof (Fn_of (obj_model o)) ≤ N.

(** Every stored wrapper is one the buffer can hold. *)
Definition wrappers_fit (h : heap) : Prop :=
  ∀ p o, objects h !! p = Some o → fits (Fn_of (obj_model o)) = true.

(** The statement passes the [static_assert] of the constructor it
    instantiates. *)
Definition accepted (s : stmt) : Prop :=
  match s with
  | Construct _ T _ => sizeof T ≤ N
  | _ => True
  end.

(** The statement constructs, assigns to or destroys the container [c]. *)
Definition writes (s : stmt) (c : addr) : Prop :=
  match s with
  | Construct c' _ _ | CopyConstruct c' _ | Assign c' _ | Destruct c' => c' = c
  | Invoke _ _ => False
  end.

(** The containers live after a statement, from those live before it. *)
Definition live_after (s : stmt) (h : heap) (c : addr) : Prop :=
  match s with
  | Construct c' _ _ | CopyConstruct c' _ => c = c' ∨ live h c
  | Assign _ _ | Invoke _ _ => live h c
  | Destruct c' => c ≠ c' ∧ live h c
  end.

End Function.

Arguments Ok {R Args A} a h.
Arguments Rejected {R Args A}.
Arguments Undefined {R Args A}.
Arguments Callable : clear implicits.
Arguments Model : clear implicits.
Arguments heap : clear implicits.
Arguments stmt : clear implicits.
Arguments outcome : clear implicits.
Arguments object : clear implicits.

End Function.

(* ===================================================================== *)
(** ** Scenes, as every solution shows them *)
(* ===================================================================== *)

(** What a shape is, whatever the dispatch mechanism: a circle or a square,
    its radius or side, and its center. *)
Inductive shape_kind := a_circle | a_square.

Record shape_view := mkView {
  kind : shape_kind;
  extent : float;
  position : Vector3D;
}.

Definition scene := list shape_view.

(** The translation every solution is meant to perform, in the words of
    the specification: each shape's center becomes [center + v]. *)
Definition moved (v : Vector3D) (a : shape_view) : shape_view :=
  mkView (kind a) (extent a) (position a +v v).

Definition scene_translate (sc : scene) (v : Vector3D) : scene := map (moved v) sc.

(** The sum [v_1 + ... + v_k], accumulated from the zero vector in the
    order of the list. *)
Definition Vector3D_sum (vs : list Vector3D) : Vector3D :=
  fold_left operator_plus vs Vector3D_zero.

(* ===================================================================== *)
(** ** Strategy_Benchmark.cpp *)
(* ===================================================================== *)

(** *** namespace classic_solution: a strategy object behind a virtual call *)
Module classic_solution.

(** [struct TranslateStrategy] is abstract; [ConcreteTranslateStrategy]
    is its one derived class. A [std::unique_ptr<TranslateStrategy>] owns
    an object of a derived class. *)
Inductive TranslateStrategy := ConcreteTranslateStrategy.

Module Circle.
Record t := mk { radius : float; center : Vector3D; strategy : TranslateStrategy }.
End Circle.

Module Square.
Record t := mk { side : float; center : Vector3D; strategy : TranslateStrategy }.
End Square.

(** [Circle( double r, std::unique_ptr<TranslateStrategy>&& ts )], with
    the member initialiser [Vector3D center{}]. *)
Definition Circle_ctor (r : float) (ts : TranslateStrategy) : Circle.t :=
  Circle.mk r Vector3D_zero ts.

Definition Square_ctor (s : float) (ts : TranslateStrategy) : Square.t :=
  Square.mk s Vector3D_zero ts.

(** [ConcreteTranslateStrategy::translate( Circle& circle, const Vector3D& v )] *)
Definition ConcreteTranslateStrategy_translate_Circle
    (circle : Circle.t) (v : Vector3D) : Circle.t :=
  Circle.mk (Circle.radius circle) (Circle.center circle +v v) (Circle.strategy circle).

(** [ConcreteTranslateStrategy::translate( Square& square, const Vector3D& v )] *)
Definition ConcreteTranslateStrategy_translate_Square
    (square : Square.t) (v : Vector3D) : Square.t :=
  Square.mk (Square.side square) (Square.center square +v v) (Square.strategy square).

(** The virtual calls [strategy->translate( circle, v )] and
    [strategy->translate( square, v )]. *)
Definition TranslateStrategy_translate_Circle
    (ts : TranslateStrategy) (circle : Circle.t) (v : Vector3D) : Circle.t :=
  match ts with
  | ConcreteTranslateStrategy => ConcreteTranslateStrategy_translate_Circle circle v
  end.

Definition TranslateStrategy_translate_Square
    (ts : TranslateStrategy) (square : Square.t) (v : Vector3D) : Square.t :=
  match ts with
  | ConcreteTranslateStrategy => ConcreteTranslateStrategy_translate_Square square v
  end.

(** [void Circle::translate( const Vector3D& v ) override { strategy->translate( *this, v ); }] *)
Definition Circle_translate (this : Circle.t) (v : Vector3D) : Circle.t :=
  TranslateStrategy_translate_Circle (Circle.strategy this) this v.

Definition Square_translate (this : Square.t) (v : Vector3D) : Square.t :=
  TranslateStrategy_translate_Square (Square.strategy this) this v.

(** The object a [std::unique_ptr<Shape>] owns: [Shape] is abstract, its
    derived classes are [Circle] and [Square]. *)
Inductive Shape := a_Circle (c : Circle.t) | a_Square (s : Square.t).

(** The virtual call [shape->translate( v )]. *)
Definition Shape_translate (shape : Shape) (v : Vector3D) : Shape :=
  match shape with
  | a_Circle c => a_Circle (Circle_translate c v)
  | a_Square s => a_Square (Square_translate s v)
  end.

Definition Shapes := list Shape.

(** [void translate( Shapes& shapes, const Vector3D& v )] *)
Fixpoint translate (shapes : Shapes) (v : Vector3D) : Shapes :=
  match shapes with
  | [] => []
  | shape :: rest => Shape_translate shape v :: translate rest v
  end.

Definition view (shape : Shape) : shape_view :=
  match shape with
  | a_Circle c => mkView a_circle (Circle.radius c) (Circle.center c)
  | a_Square s => mkView a_square (Square.side s) (Square.center s)
  end.

(** The shapes [main] pushes:
    [std::make_unique<Circle>( r, std::make_unique<ConcreteTranslateStrategy>() )]. *)
Definition make_Circle (r : float) : Shape := a_Circle (Circle_ctor r ConcreteTranslateStrategy).
Definition make_Square (s : float) : Shape := a_Square (Square_ctor s ConcreteTranslateStrategy).

(** The strategy member of a shape. *)
Definition strategy_of (shape : Shape) : TranslateStrategy :=
  match shape with
  | a_Circle c => Circle.strategy c
  | a_Square s => Square.strategy s
  end.

End classic_solution.

(** *** namespace std_function_solution: a [std::function] strategy *)
Module std_function_solution.

(** [struct Translate]: no data members; its call operator is a template
    over the shape type. It is the callable the namespace defines for
    both strategy signatures. *)
Record Translate := mkTranslate {}.

(** A [std::function<void(T&, const Vector3D&)>], by the callable it
    stores: [Translate] is the callable the program stores in one. *)
Inductive TranslateStrategy := target (fn : Translate).

Module Circle.
Record t := mk { radius : float; center : Vector3D; strategy : TranslateStrategy }.
End Circle.

Module Square.
Record t := mk { side : float; center : Vector3D; strategy : TranslateStrategy }.
End Square.

(** [Circle( double r, TranslateStrategy ts )]; [Vector3D center] is
    default-initialised, which runs the member initialisers [x{}], [y{}],
    [z{}]. *)
Definition Circle_ctor (r : float) (ts : TranslateStrategy) : Circle.t :=
  Circle.mk r Vector3D_zero ts.

Definition Square_ctor (s : float) (ts : TranslateStrategy) : Square.t :=
  Square.mk s Vector3D_zero ts.

(** [void translate( Circle& circle, const Vector3D& v )] *)
Definition translate_Circle (circle : Circle.t) (v : Vector3D) : Circle.t :=
  Circle.mk (Circle.radius circle) (Circle.center circle +v v) (Circle.strategy circle).

(** [void translate( Square& square, const Vector3D& v )] *)
Definition translate_Square (square : Square.t) (v : Vector3D) : Square.t :=
  Square.mk (Square.side square) (Square.center square +v v) (Square.strategy square).

(** [Translate::operator()( T& t, const Vector3D& v ) { translate( t, v ); }]
    at [T = Circle] and at [T = Square]. *)
Definition Translate_call_Circle (fn : Translate) (t : Circle.t) (v : Vector3D) : Circle.t :=
  translate_Circle t v.

Definition Translate_call_Square (fn : Translate) (t : Square.t) (v : Vector3D) : Square.t :=
  translate_Square t v.

(** Calling the [std::function] calls its target. *)
Definition TranslateStrategy_call_Circle
    (ts : TranslateStrategy) (circle : Circle.t) (v : Vector3D) : Circle.t :=
  match ts with target fn => Translate_call_Circle fn circle v end.

Definition TranslateStrategy_call_Square
    (ts : TranslateStrategy) (square : Square.t) (v : Vector3D) : Square.t :=
  match ts with target fn => Translate_call_Square fn square v end.

(** [void Circle::translate( const Vector3D& v ) override { strategy( *this, v ); }] *)
Definition Circle_translate (this : Circle.t) (v : Vector3D) : Circle.t :=
  TranslateStrategy_call_Circle (Circle.strategy this) this v.

Definition Square_translate (this : Square.t) (v : Vector3D) : Square.t :=
  TranslateStrategy_call_Square (Square.strategy this) this v.

Inductive Shape := a_Circle (c : Circle.t) | a_Square (s : Square.t).

Definition Shape_translate (shape : Shape) (v : Vector3D) : Shape :=
  match shape with
  | a_Circle c => a_Circle (Circle_translate c v)
  | a_Square s => a_Square (Square_translate s v)
  end.

Definition Shapes := list Shape.

(** [void translate( Shapes& shapes, const Vector3D& v )] *)
Fixpoint translate (shapes : Shapes) (v : Vector3D) : Shapes :=
  match shapes with
  | [] => []
  | shape :: rest => Shape_translate shape v :: translate rest v
  end.

Definition view (shape : Shape) : shape_view :=
  match shape with
  | a_Circle c => mkView a_circle (Circle.radius c) (Circle.center c)
  | a_Square s => mkView a_square (Square.side s) (Square.center s)
  end.

(** [std::make_unique<Circle>( r, Translate{} )] *)
Definition make_Circle (r : float) : Shape := a_Circle (Circle_ctor r (target mkTranslate)).
Definition make_Square (s : float) : Shape := a_Square (Square_ctor s (target mkTranslate)).

(** The strategy member of a shape. *)
Definition strategy_of (shape : Shape) : TranslateStrategy :=
  match shape with
  | a_Circle c => Circle.strategy c
  | a_Square s => Square.strategy s
  end.

End std_function_solution.

(** *** namespace manual_function_solution: a [Function] strategy *)
Module manual_function_solution.

(** [struct Translate]: no data members, a [const] call operator that is
    a template over the shape type. *)
Record Translate := mkTranslate {}.

(** [sizeof(Translate)] and [alignof(Translate)]: a class without data
    members has size 1 and alignment 1. *)
Definition sizeof_Translate : nat := 1.
Definition alignof_Translate : nat := 1.

(** A [Function<void(T&, const Vector3D&),8UL>], by the payload its
    buffer holds: [Translate] is the callable the program stores in one. *)
Inductive TranslateStrategy := holding (fn : Translate).

Module Circle.
Record t := mk { radius : float; center : Vector3D; strategy : TranslateStrategy }.
End Circle.

Module Square.
Record t := mk { side : float; center : Vector3D; strategy : TranslateStrategy }.
End Square.

(** [Circle( double r, TranslateStrategy ts )]; [Vector3D center] is
    default-initialised to zeros by its member initialisers. *)
Definition Circle_ctor (r : float) (ts : TranslateStrategy) : Circle.t :=
  Circle.mk r Vector3D_zero ts.

Definition Square_ctor (s : float) (ts : TranslateStrategy) : Square.t :=
  Square.mk s Vector3D_zero ts.

(** [void translate( Circle& circle, const Vector3D& v )] *)
Definition translate_Circle (circle : Circle.t) (v : Vector3D) : Circle.t :=
  Circle.mk (Circle.radius circle) (Circle.center circle +v v) (Circle.strategy circle).

(** [void translate( Square& square, const Vector3D& v )] *)
Definition translate_Square (square : Square.t) (v : Vector3D) : Square.t :=
  Square.mk (Square.side square) (Square.center square +v v) (Square.strategy square).

(** [Translate] as a payload type of [Function<void(Circle&, const Vector3D&),8UL>]
    and of [Function<void(Square&, const Vector3D&),8UL>]: its call
    operator at [T = Circle] and [T = Square]. The second argument is a
    reference to [const] and comes back as it went in. *)
Definition Translate_for_Circle : Function.Callable unit (Circle.t * Vector3D) :=
  Function.mkCallable Translate sizeof_Translate alignof_Translate
    (λ _ args, ((), (translate_Circle args.1 args.2, args.2))).

Definition Translate_for_Square : Function.Callable unit (Square.t * Vector3D) :=
  Function.mkCallable Translate sizeof_Translate alignof_Translate
    (λ _ args, ((), (translate_Square args.1 args.2, args.2))).

(** The wrapper object in the buffer of a strategy. *)
Definition Circle_strategy_Model (ts : TranslateStrategy)
    : Function.Model unit (Circle.t * Vector3D) :=
  match ts with holding fn => Function.mkModel Translate_for_Circle fn end.

Definition Square_strategy_Model (ts : TranslateStrategy)
    : Function.Model unit (Square.t * Vector3D) :=
  match ts with holding fn => Function.mkModel Translate_for_Square fn end.

(** [void Circle::translate( const Vector3D& v ) override { strategy( *this, v ); }]:
    [Function::operator()] forwards to the wrapper's call operator. *)
Definition Circle_translate (this : Circle.t) (v : Vector3D) : Circle.t :=
  (Function.Model_call (Circle_strategy_Model (Circle.strategy this)) (this, v)).2.1.

Definition Square_translate (this : Square.t) (v : Vector3D) : Square.t :=
  (Function.Model_call (Square_strategy_Model (Square.strategy this)) (this, v)).2.1.

Inductive Shape := a_Circle (c : Circle.t) | a_Square (s : Square.t).

Definition Shape_translate (shape : Shape) (v : Vector3D) : Shape :=
  match shape with
  | a_Circle c => a_Circle (Circle_translate c v)
  | a_Square s => a_Square (Square_translate s v)
  end.

Definition Shapes := list Shape.

(** [void translate( Shapes& shapes, const Vector3D& v )] *)
Fixpoint translate (shapes : Shapes) (v : Vector3D) : Shapes :=
  match shapes with
  | [] => []
  | shape :: rest => Shape_translate shape v :: translate rest v
  end.

Definition view (shape : Shape) : shape_view :=
  match shape with
  | a_Circle c => mkView a_circle (Circle.radius c) (Circle.center c)
  | a_Square s => mkView a_square (Square.side s) (Square.center s)
  end.

(** [std::make_unique<Circle>( r, Translate{} )] *)
Definition make_Circle (r : float) : Shape := a_Circle (Circle_ctor r (holding mkTranslate)).
Definition make_Square (s : float) : Shape := a_Square (Square_ctor s (holding mkTranslate)).

(** The strategy member of a shape. *)
Definition strategy_of (shape : Shape) : TranslateStrategy :=
  match shape with
  | a_Circle c => Circle.strategy c
  | a_Square s => Square.strategy s
  end.

End manual_function_solution.

(* ===================================================================== *)
(** ** Visitor_Benchmark.cpp *)
(* ===================================================================== *)

(** *** namespace enum_solution: a type tag and a switch *)
Module enum_solution.

(** [enum ShapeType { circle, square };] *)
Inductive ShapeType := circle | square.

Module Circle.
Record t := mk { radius : float; center : Vector3D }.
End Circle.

Module Square.
Record t := mk { side : float; center : Vector3D }.
End Square.

(** [Circle( double rad ) : Shape( circle ), radius( rad ), center() {}] *)
Definition Circle_ctor (rad : float) : Circle.t := Circle.mk rad Vector3D_zero.

(** [Square( double s ) : Shape( square ), side( s ), center() {}] *)
Definition Square_ctor (s : float) : Square.t := Square.mk s Vector3D_zero.

(** The object a [std::unique_ptr<Shape>] owns: the [Shape] base of a
    [Circle] or of a [Square]. *)
Inductive Shape := a_Circle (c : Circle.t) | a_Square (s : Square.t).

(** [Shape::type]: the [Circle] constructor initialises its base with
    [circle], the [Square] constructor with [square], and no code assigns
    the member afterwards. *)
Definition type (s : Shape) : ShapeType :=
  match s with
  | a_Circle _ => circle
  | a_Square _ => square
  end.

(** [static_cast<Circle&>( *s.get() )] and [static_cast<Square&>( *s.get() )]:
    defined when the object is of that class. *)
Definition static_cast_Circle (s : Shape) : option Circle.t :=
  match s with a_Circle c => Some c | a_Square _ => None end.

Definition static_cast_Square (s : Shape) : option Square.t :=
  match s with a_Square q => Some q | a_Circle _ => None end.

(** [void translate( Circle& c, const Vector3D& v )] *)
Definition translate_Circle (c : Circle.t) (v : Vector3D) : Circle.t :=
  Circle.mk (Circle.radius c) (Circle.center c +v v).

(** [void translate( Square& s, const Vector3D& v )] *)
Definition translate_Square (s : Square.t) (v : Vector3D) : Square.t :=
  Square.mk (Square.side s) (Square.center s +v v).

(** The body of the loop: [switch ( s->type )]. *)
Definition translate_switch (s : Shape) (v : Vector3D) : option Shape :=
  match type s with
  | circle => c ← static_cast_Circle s; Some (a_Circle (translate_Circle c v))
  | square => q ← static_cast_Square s; Some (a_Square (translate_Square q v))
  end.

Definition Shapes := list Shape.

(** [void translate( Shapes& shapes, const Vector3D& v )]; [None] when a
    cast is not defined. *)
Fixpoint translate (shapes : Shapes) (v : Vector3D) : option Shapes :=
  match shapes with
  | [] => Some []
  | s :: rest =>
      s' ← translate_switch s v;
      rest' ← translate rest v;
      Some (s' :: rest')
  end.

Definition view (shape : Shape) : shape_view :=
  match shape with
  | a_Circle c => mkView a_circle (Circle.radius c) (Circle.center c)
  | a_Square s => mkView a_square (Square.side s) (Square.center s)
  end.

(** [std::make_unique<Circle>( r )] *)
Definition make_Circle (r : float) : Shape := a_Circle (Circle_ctor r).
Definition make_Square (s : float) : Shape := a_Square (Square_ctor s).

End enum_solution.

(** *** namespace object_oriented_solution: a virtual [translate] *)
Module object_oriented_solution.

Module Circle.
Record t := mk { radius : float; center : Vector3D }.
End Circle.

Module Square.
Record t := mk { side : float; center : Vector3D }.
End Square.

(** [Circle( double rad ) : Shape(), radius( rad ), center() {}] *)
Definition Circle_ctor (rad : float) : Circle.t := Circle.mk rad Vector3D_zero.
Definition Square_ctor (s : float) : Square.t := Square.mk s Vector3D_zero.

(** [void Circle::translate( const Vector3D& v ) override { center = center + v; }] *)
Definition Circle_translate (this : Circle.t) (v : Vector3D) : Circle.t :=
  Circle.mk (Circle.radius this) (Circle.center this +v v).

Definition Square_translate (this : Square.t) (v : Vector3D) : Square.t :=
  Square.mk (Square.side this) (Square.center this +v v).

Inductive Shape := a_Circle (c : Circle.t) | a_Square (s : Square.t).

(** The virtual call [s->translate( v )]. *)
Definition Shape_translate (s : Shape) (v : Vector3D) : Shape :=
  match s with
  | a_Circle c => a_Circle (Circle_translate c v)
  | a_Square q => a_Square (Square_translate q v)
  end.

Definition Shapes := list Shape.

(** [void translate( Shapes& shapes, const Vector3D& v )] *)
Fixpoint translate (shapes : Shapes) (v : Vector3D) : Shapes :=
  match shapes with
  | [] => []
  | s :: rest => Shape_translate s v :: translate rest v
  end.

Definition view (shape : Shape) : shape_view :=
  match shape with
  | a_Circle c => mkView a_circle (Circle.radius c) (Circle.center c)
  | a_Square s => mkView a_square (Square.side s) (Square.center s)
  end.

Definition make_Circle (r : float) : Shape := a_Circle (Circle_ctor r).
Definition make_Square (s : float) : Shape := a_Square (Square_ctor s).

End object_oriented_solution.

(** *** namespace visitor_solution: double dispatch through [accept] *)
Module visitor_solution.

Module Circle.
Record t := mk { radius : float; center : Vector3D }.
End Circle.

Module Square.
Record t := mk { side : float; center : Vector3D }.
End Square.

(** [Circle( double r ) : Shape{}, radius{ r } {}], with the member
    initialiser [Vector3D center{}]. *)
Definition Circle_ctor (r : float) : Circle.t := Circle.mk r Vector3D_zero.
Definition Square_ctor (s : float) : Square.t := Square.mk s Vector3D_zero.

(** [struct Visitor] is abstract; [struct Translate : public Visitor],
    with its member [Vector3D v], is its one derived class. *)
Inductive Visitor := Translate (v : Vector3D).

(** The virtual calls [v.visit( circle )] and [v.visit( square )]:
    [Translate::visit( Circle& c ) const { c.center = c.center + v; }]. *)
Definition Visitor_visit_Circle (vis : Visitor) (c : Circle.t) : Circle.t :=
  match vis with
  | Translate v => Circle.mk (Circle.radius c) (Circle.center c +v v)
  end.

Definition Visitor_visit_Square (vis : Visitor) (s : Square.t) : Square.t :=
  match vis with
  | Translate v => Square.mk (Square.side s) (Square.center s +v v)
  end.

(** [void Circle::accept( const Visitor& v ) override { v.visit( *this ); }] *)
Definition Circle_accept (this : Circle.t) (v : Visitor) : Circle.t :=
  Visitor_visit_Circle v this.

Definition Square_accept (this : Square.t) (v : Visitor) : Square.t :=
  Visitor_visit_Square v this.

Inductive Shape := a_Circle (c : Circle.t) | a_Square (s : Square.t).

(** The virtual call [shape->accept( v )]. *)
Definition Shape_accept (shape : Shape) (v : Visitor) : Shape :=
  match shape with
  | a_Circle c => a_Circle (Circle_accept c v)
  | a_Square s => a_Square (Square_accept s v)
  end.

Definition Shapes := list Shape.

(** [void translate( Shapes const& shapes, const Vector3D& v )] *)
Fixpoint translate (shapes : Shapes) (v : Vector3D) : Shapes :=
  match shapes with
  | [] => []
  | shape :: rest => Shape_accept shape (Translate v) :: translate rest v
  end.

Definition view (shape : Shape) : shape_view :=
  match shape with
  | a_Circle c => mkView a_circle (Circle.radius c) (Circle.center c)
  | a_Square s => mkView a_square (Square.side s) (Square.center s)
  end.

Definition make_Circle (r : float) : Shape := a_Circle (Circle_ctor r).
Definition make_Square (s : float) : Shape := a_Square (Square_ctor s).

End visitor_solution.

(** *** namespace std_variant_solution: [std::variant] and [std::visit] *)
Module std_variant_solution.

Module Circle.
Record t := mk { radius : float; center : Vector3D }.
End Circle.

Module Square.
Record t := mk { side : float; center : Vector3D }.
End Square.

(** [Circle{ r }]: aggregate initialisation, [center] from its member
    initialiser [{}]. *)
Definition Circle_init (r : float) : Circle.t := Circle.mk r Vector3D_zero.
Definition Square_init (s : float) : Square.t := Square.mk s Vector3D_zero.

(** [using Shape = std::variant<Circle,Square>;] *)
Inductive Shape := alt_Circle (c : Circle.t) | alt_Square (s : Square.t).

(** [Shape::index()] *)
Definition index (s : Shape) : nat :=
  match s with alt_Circle _ => 0 | alt_Square _ => 1 end.

(** [struct Translate { ...; Vector3D v{}; };] *)
Record Translate := mkTranslate { v : Vector3D }.

(** [void operator()( Circle& c ) const { c.center = c.center + v; }] *)
Definition Translate_call_Circle (this : Translate) (c : Circle.t) : Circle.t :=
  Circle.mk (Circle.radius c) (Circle.center c +v v this).

(** [void operator()( Square& s ) const { s.center = s.center + v; }] *)
Definition Translate_call_Square (this : Translate) (s : Square.t) : Square.t :=
  Square.mk (Square.side s) (Square.center s +v v this).

(** [std::visit( visitor, s )]: the visitor is called on the active
    alternative. *)
Definition visit (visitor : Translate) (s : Shape) : Shape :=
  match s with
  | alt_Circle c => alt_Circle (Translate_call_Circle visitor c)
  | alt_Square q => alt_Square (Translate_call_Square visitor q)
  end.

(** [void translate( Shape& s, const Vector3D& v ) { std::visit( Translate{ v }, s ); }] *)
Definition translate_Shape (s : Shape) (v : Vector3D) : Shape :=
  visit (mkTranslate v) s.

Definition Shapes := list Shape.

(** [void translate( Shapes& shapes, const Vector3D& v )] *)
Fixpoint translate (shapes : Shapes) (v : Vector3D) : Shapes :=
  match shapes with
  | [] => []
  | shape :: rest => translate_Shape shape v :: translate rest v
  end.

Definition view (shape : Shape) : shape_view :=
  match shape with
  | alt_Circle c => mkView a_circle (Circle.radius c) (Circle.center c)
  | alt_Square s => mkView a_square (Square.side s) (Square.center s)
  end.

(** [shapes.push_back( Circle{ r } )] *)
Definition make_Circle (r : float) : Shape := alt_Circle (Circle_init r).
Definition make_Square (s : float) : Shape := alt_Square (Square_init s).

End std_variant_solution.

(** *** namespace mpark_variant_solution: [mpark::variant] and [mpark::visit] *)
Module mpark_variant_solution.

Module Circle.
Record t := mk { radius : float; center : Vector3D }.
End Circle.

Module Square.
Record t := mk { side : float; center : Vector3D }.
End Square.

Definition Circle_init (r : float) : Circle.t := Circle.mk r Vector3D_zero.
Definition Square_init (s : float) : Square.t := Square.mk s Vector3D_zero.

(** [using Shape = mpark::variant<Circle,Square>;] *)
Inductive Shape := alt_Circle (c : Circle.t) | alt_Square (s : Square.t).

Definition index (s : Shape) : nat :=
  match s with alt_Circle _ => 0 | alt_Square _ => 1 end.

Record Translate := mkTranslate { v : Vector3D }.

Definition Translate_call_Circle (this : Translate) (c : Circle.t) : Circle.t :=
  Circle.mk (Circle.radius c) (Circle.center c +v v this).

Definition Translate_call_Square (this : Translate) (s : Square.t) : Square.t :=
  Square.mk (Square.side s) (Square.center s +v v this).

(** [mpark::visit( visitor, s )] *)
Definition visit (visitor : Translate) (s : Shape) : Shape :=
  match s with
  | alt_Circle c => alt_Circle (Translate_call_Circle visitor c)
  | alt_Square q => alt_Square (Translate_call_Square visitor q)
  end.

(** [void translate( Shape& s, const Vector3D& v ) { mpark::visit( Translate{ v }, s ); }] *)
Definition translate_Shape (s : Shape) (v : Vector3D) : Shape :=
  visit (mkTranslate v) s.

Definition Shapes := list Shape.

Fixpoint translate (shapes : Shapes) (v : Vector3D) : Shapes :=
  match shapes with
  | [] => []
  | shape :: rest => translate_Shape shape v :: translate rest v
  end.

Definition view (shape : Shape) : shape_view :=
  match shape with
  | alt_Circle c => mkView a_circle (Circle.radius c) (Circle.center c)
  | alt_Square s => mkView a_square (Square.side s) (Square.center s)
  end.

Definition make_Circle (r : float) : Shape := alt_Circle (Circle_init r).
Definition make_Square (s : float) : Shape := alt_Square (Square_init s).

End mpark_variant_solution.

(* ===================================================================== *)
(** ** The solutions side by side *)
(* ===================================================================== *)

(** What the two [main] functions use of a solution namespace: its shape
    type, how a circle and a square are made, the [translate] over a list
    of shapes ([None]: no defined result), and what a shape shows. *)
Record Solution := mkSolution {
  Shape : Type;
  make_Circle : float → Shape;
  make_Square : float → Shape;
  translate : list Shape → Vector3D → option (list Shape);
  view : Shape → shape_view;
}.

Definition classic : Solution :=
  mkSolution classic_solution.Shape classic_solution.make_Circle
    classic_solution.make_Square
    (λ shapes v, Some (classic_solution.translate shapes v)) classic_solution.view.

Definition std_function : Solution :=
  mkSolution std_function_solution.Shape std_function_solution.make_Circle
    std_function_solution.make_Square
    (λ shapes v, Some (std_function_solution.translate shapes v))
    std_function_solution.view.

Definition manual_function : Solution :=
  mkSolution manual_function_solution.Shape manual_function_solution.make_Circle
    manual_function_solution.make_Square
    (λ shapes v, Some (manual_function_solution.translate shapes v))
    manual_function_solution.view.

Definition enum : Solution :=
  mkSolution enum_solution.Shape enum_solution.make_Circle enum_solution.make_Square
    enum_solution.translate enum_solution.view.

Definition object_oriented : Solution :=
  mkSolution object_oriented_solution.Shape object_oriented_solution.make_Circle
    object_oriented_solution.make_Square
    (λ shapes v, Some (object_oriented_solution.translate shapes v))
    object_oriented_solution.view.

Definition visitor : Solution :=
  mkSolution visitor_solution.Shape visitor_solution.make_Circle
    visitor_solution.make_Square
    (λ shapes v, Some (visitor_solution.translate shapes v)) visitor_solution.view.

Definition std_variant : Solution :=
  mkSolution std_variant_solution.Shape std_variant_solution.make_Circle
    std_variant_solution.make_Square
    (λ shapes v, Some (std_variant_solution.translate shapes v))
    std_variant_solution.view.

Definition mpark_variant : Solution :=
  mkSolution mpark_variant_solution.Shape mpark_variant_solution.make_Circle
    mpark_variant_solution.make_Square
    (λ shapes v, Some (mpark_variant_solution.translate shapes v))
    mpark_variant_solution.view.

Definition solutions : list Solution :=
  [classic; std_function; manual_function;
   enum; object_oriented; visitor; std_variant; mpark_variant].

(** The scene a list of shapes shows. *)
Definition scene_of (S : Solution) (shapes : list (Shape S)) : scene :=
  map (view S) shapes.

(** [translate] applied for [v_1], ..., [v_k] in turn. *)
Fixpoint translate_all (S : Solution) (shapes : list (Shape S)) (vs : list Vector3D)
    : option (list (Shape S)) :=
  match vs with
  | [] => Some shapes
  | v :: vs' => shapes' ← translate S shapes v; translate_all S shapes' vs'
  end.

(* ===================================================================== *)
(** ** The benchmark blocks of the two [main] functions *)
(* ===================================================================== *)

Section Benchmark.
(** The state of the random number generator ([rng] together with [dist])
    and the draw [dist( rng )], which returns a number and advances the
    state. Each block of [main] starts from the state [rng.seed( seed )]
    leaves. *)
Context {gen : Type} (dist : gen → float * gen).

(** The first loop of a block, [n] iterations to go:
    [if( dist( rng ) < 0.5 ) shapes.push_back( Circle of dist( rng ) );
     else shapes.push_back( Square of dist( rng ) );] *)
Fixpoint build_shapes (Sol : Solution) (n : nat) (rng : gen) (shapes : list (Shape Sol))
    : list (Shape Sol) * gen :=
  match n with
  | 0 => (shapes, rng)
  | S n' =>
      let '(d, rng1) := dist rng in
      if (d <? 0.5)%float
      then let '(r, rng2) := dist rng1 in
           build_shapes Sol n' rng2 (shapes ++ [make_Circle Sol r])
      else let '(s, rng2) := dist rng1 in
           build_shapes Sol n' rng2 (shapes ++ [make_Square Sol s])
  end.

(** The timed loop of a block, [steps] iterations to go:
    [translate( shapes, Vector3D{ dist( rng ), dist( rng ) } );]. The
    braced initialisers are evaluated left to right; [z] keeps its member
    initialiser. *)
Fixpoint run_steps (Sol : Solution) (steps : nat) (rng : gen) (shapes : list (Shape Sol))
    : option (list (Shape Sol) * gen) :=
  match steps with
  | 0 => Some (shapes, rng)
  | S k =>
      let '(a, rng1) := dist rng in
      let '(b, rng2) := dist rng1 in
      shapes' ← translate Sol shapes (mkVector3D a b 0);
      run_steps Sol k rng2 shapes'
  end.

(** One block of [main], from [Shapes shapes;] to the end of the timed
    loop: the shapes it leaves and the state of the generator. *)
Definition benchmark_block (Sol : Solution) (n steps : nat) (rng : gen)
    : option (list (Shape Sol) * gen) :=
  let '(shapes, rng') := build_shapes Sol n rng [] in
  run_steps Sol steps rng' shapes.

(** What the draws of the first loop decide, whatever the solution: the
    kind and the radius or side of each shape, in order. *)
Fixpoint drawn_shapes (n : nat) (rng : gen) : list (shape_kind * float) * gen :=
  match n with
  | 0 => ([], rng)
  | S n' =>
      let '(d, rng1) := dist rng in
      let '(r, rng2) := dist rng1 in
      let '(rest, rng') := drawn_shapes n' rng2 in
      ((if (d <? 0.5)%float then a_circle else a_square, r) :: rest, rng')
  end.

(** The vectors the draws of the timed loop make, in order. *)
Fixpoint drawn_vectors (steps : nat) (rng : gen) : list Vector3D * gen :=
  match steps with
  | 0 => ([], rng)
  | S k =>
      let '(a, rng1) := dist rng in
      let '(b, rng2) := dist rng1 in
      let '(rest, rng') := drawn_vectors k rng2 in
      (mkVector3D a b 0 :: rest, rng')
  end.

End Benchmark.

(** What a shape of a drawn kind and size shows before the timed loop. *)
Definition fresh_view (ke : shape_kind * float) : shape_view :=
  mkView ke.1 ke.2 Vector3D_zero.

(** A generator for examples: a tape of numbers, read from the front
    (and 0 once the tape is used up). *)
Definition tape_dist (tape : list float) : float * list float :=
  match tape with
  | [] => (0%float, [])
  | d :: rest => (d, rest)
  end.

(* ===================================================================== *)
(** ** A client of [Function], as [main] is one *)
(* ===================================================================== *)

Module client.
Import Function manual_function_solution.

Abbreviation statement := (stmt unit (Circle.t * Vector3D)) (only parsing).

(** The two containers of [std::make_unique<Circle>( r, Translate{} )]:
    the constructor parameter [ts], converted from [Translate{}], and
    the member [strategy], copy-constructed from [std::move(ts)]; a third
    container [other] for examples. *)
Definition ts : nat := 0.
Definition strategy : nat := 1.
Definition other : nat := 2.

(** What [Circle( double r, TranslateStrategy ts )] does to the two
    containers, up to the destruction of its parameter. *)
Definition make_strategy : list statement :=
  [Construct ts Translate_for_Circle mkTranslate;
   CopyConstruct strategy ts;
   Destruct ts].

(** A circle of radius 2 that was translated once, and the vector
    [{1,2,3}]. *)
Definition the_circle : Circle.t :=
  Circle.mk 2 (mkVector3D 0.5 0 0) (holding mkTranslate).
Definition the_vector : Vector3D := mkVector3D 1 2 3.

(** The life of a circle's strategy: made, called once by
    [Circle::translate], destroyed with the circle. *)
Definition strategy_life : list statement :=
  make_strategy ++ [Invoke strategy (the_circle, the_vector); Destruct strategy].

Definition two_strategies : list statement :=
  make_strategy ++ [Construct other Translate_for_Circle mkTranslate].

(** The store a program leaves when run from the empty store with the
    capacity [8UL] of [Circle::TranslateStrategy]. *)
Definition store_after (prog : list statement) : heap unit (Circle.t * Vector3D) :=
  match exec 8 prog empty_heap with
  | Ok _ h => h
  | _ => empty_heap
  end.

(** The wrapper object of [strategy] after [make_strategy], and of
    [other] after [two_strategies]. *)
Definition strategy_object : object unit (Circle.t * Vector3D) :=
  mkObject 1 (mkModel Translate_for_Circle mkTranslate).
Definition other_object : object unit (Circle.t * Vector3D) :=
  mkObject 2 (mkModel Translate_for_Circle mkTranslate).

(** A callable that captures a [Vector3D] by value and moves a circle by
    it: three [double]s, 24 bytes aligned to 8, more than the capacity
    [8UL]. *)
Definition Shift_for_Circle : Callable unit (Circle.t * Vector3D) :=
  mkCallable Vector3D 24 8 (λ w args, ((), (translate_Circle args.1 w, args.2))).

(** A callable declared [alignas(16)] that captures two [double]s and
    moves a circle by them in [x] and [y]: 16 bytes aligned to 16. *)
Definition Aligned_Shift_for_Circle : Callable unit (Circle.t * Vector3D) :=
  mkCallable (float * float) 16 16
    (λ w args, ((), (translate_Circle args.1 (mkVector3D w.1 w.2 0), args.2))).

End client.

(* ===================================================================== *)
(** ** Counting payload objects and calls *)
(* ===================================================================== *)

Module Accounting.
Import Function.

Section Accounting.
Context {R Args : Type}.

Definition is_construction (e : event) : bool :=
  match e with Constructed _ => true | Destroyed _ => false end.

Definition is_destruction (e : event) : bool :=
  match e with Constructed _ => false | Destroyed _ => true end.

(** How many payload objects were constructed, and how many destroyed. *)
Definition constructed_total (h : heap R Args) : nat :=
  length (filter (λ e, is_construction e = true) (trace h)).

Definition destroyed_total (h : heap R Args) : nat :=
  length (filter (λ e, is_destruction e = true) (trace h)).

(** The books of totals: as many constructions as identities handed out,
    and as many live objects as constructions not yet matched by a
    destruction. *)
Definition balanced (h : heap R Args) : Prop :=
  constructed_total h = next_id h
  ∧ constructed_total h = destroyed_total h + size (objects h).

End Accounting.

(** What [Circle( double r, TranslateStrategy ts )] and
    [Square( double s, TranslateStrategy ts )] of
    [manual_function_solution] do with their two containers when called
    with a [Translate]: the parameter [ts] is converted from the callable,
    the member [strategy] is copy-constructed from it, and [ts] is
    destroyed when the constructor returns. *)
Definition Circle_ctor_strategy (ts strategy : nat) (fn : manual_function_solution.Translate)
    : list (stmt unit (manual_function_solution.Circle.t * Vector3D)) :=
  [Construct ts manual_function_solution.Translate_for_Circle fn;
   CopyConstruct strategy ts;
   Destruct ts].

Definition Square_ctor_strategy (ts strategy : nat) (fn : manual_function_solution.Translate)
    : list (stmt unit (manual_function_solution.Square.t * Vector3D)) :=
  [Construct ts manual_function_solution.Translate_for_Square fn;
   CopyConstruct strategy ts;
   Destruct ts].

End Accounting.

(* ===================================================================== *)
(** ** Properties of the translations *)
(* ===================================================================== *)

(** Case analysis on a shape down to its members (the numbers stay). *)
Ltac split_members :=
  repeat match goal with
         | m : _ |- _ => is_var m; destruct m
         end.

Ltac by_members := intros; split_members; reflexivity.

Section PerSolution.
Implicit Types v : Vector3D.

Lemma classic_view_translate shape v :
  classic_solution.view (classic_solution.Shape_translate shape v)
  = moved v (classic_solution.view shape).
Proof. by_members. Qed.

Lemma std_function_view_translate shape v :
  std_function_solution.view (std_function_solution.Shape_translate shape v)
  = moved v (std_function_solution.view shape).
Proof. by_members. Qed.

Lemma manual_function_view_translate shape v :
  manual_function_solution.view (manual_function_solution.Shape_translate shape v)
  = moved v (manual_function_solution.view shape).
Proof. by_members. Qed.

Lemma enum_switch_defined s v :
  ∃ s', enum_solution.translate_switch s v = Some s'
        ∧ enum_solution.view s' = moved v (enum_solution.view s)
        ∧ enum_solution.type s' = enum_solution.type s.
Proof. destruct s as [c|q]; eexists; (split; [reflexivity|]); split; by_members. Qed.

Lemma object_oriented_view_translate s v :
  object_oriented_solution.view (object_oriented_solution.Shape_translate s v)
  = moved v (object_oriented_solution.view s).
Proof. by_members. Qed.

Lemma visitor_view_accept shape v :
  visitor_solution.view (visitor_solution.Shape_accept shape (visitor_solution.Translate v))
  = moved v (visitor_solution.view shape).
Proof. by_members. Qed.

Lemma std_variant_view_translate s v :
  std_variant_solution.view (std_variant_solution.translate_Shape s v)
  = moved v (std_variant_solution.view s).
Proof. by_members. Qed.

Lemma mpark_variant_view_translate s v :
  mpark_variant_solution.view (mpark_variant_solution.translate_Shape s v)
  = moved v (mpark_variant_solution.view s).
Proof. by_members. Qed.

(** The loop of [enum_solution::translate] never meets an undefined cast. *)
Lemma enum_translate_defined shapes v :
  ∃ out, enum_solution.translate shapes v = Some out
         ∧ map enum_solution.view out = scene_translate (map enum_solution.view shapes) v
         ∧ map enum_solution.type out = map enum_solution.type shapes.
Proof.
  induction shapes as [|s rest (out & Hout & Hview & Htype)]; simpl.
  - by exists [].
  - destruct (enum_switch_defined s v) as (s' & Hs' & Hv & Ht).
    exists (s' :: out). rewrite Hs', Hout. simpl.
    by rewrite Hv, Hview, Ht, Htype.
Qed.

End PerSolution.

(** A loop that translates shape by shape shows the translated scene. *)
Ltac loop_by_induction shapes step :=
  induction shapes as [|? ? IH]; simpl; [reflexivity | rewrite step, IH; reflexivity].

(** A property of the eight solutions holds of every member of [solutions]. *)
Lemma in_solutions_cases (P : Solution → Prop) :
  P classic → P std_function → P manual_function → P enum →
  P object_oriented → P visitor → P std_variant → P mpark_variant →
  ∀ S, S ∈ solutions → P S.
Proof.
  intros ???????? S. unfold solutions. rewrite !elem_of_cons, elem_of_nil.
  intros [->|[->|[->|[->|[->|[->|[->|[->|[]]]]]]]]]; assumption.
Qed.

(** Every solution's [translate] returns, and the list it leaves shows the
    scene with each center moved by [v]. *)
Lemma translate_scene (S : Solution) :
  S ∈ solutions →
  ∀ (shapes : list (Shape S)) (v : Vector3D),
    ∃ out, translate S shapes v = Some out
           ∧ scene_of S out = scene_translate (scene_of S shapes) v.
Proof.
  revert S.
  apply (in_solutions_cases
           (λ S, ∀ (shapes : list (Shape S)) (v : Vector3D),
              ∃ out, translate S shapes v = Some out
                     ∧ scene_of S out = scene_translate (scene_of S shapes) v));
    intros shapes v; unfold scene_of, scene_translate; simpl;
    try (eexists; split; [reflexivity|]).
  - loop_by_induction shapes classic_view_translate.
  - loop_by_induction shapes std_function_view_translate.
  - loop_by_induction shapes manual_function_view_translate.
  - destruct (enum_translate_defined shapes v) as (out & ? & ? & _). by exists out.
  - loop_by_induction shapes object_oriented_view_translate.
  - loop_by_induction shapes visitor_view_accept.
  - loop_by_induction shapes std_variant_view_translate.
  - loop_by_induction shapes mpark_variant_view_translate.
Qed.

(** Repeated translation shows the scene translated as often. *)
Lemma translate_all_scene (S : Solution) :
  S ∈ solutions →
  ∀ (vs : list Vector3D) (shapes : list (Shape S)),
    ∃ out, translate_all S shapes vs = Some out
           ∧ scene_of S out = fold_left scene_translate vs (scene_of S shapes).
Proof.
  intros HS vs. induction vs as [|v vs IH]; intros shapes; simpl.
  - by exists shapes.
  - destruct (translate_scene S HS shapes v) as (mid & -> & Hmid). simpl.
    destruct (IH mid) as (out & -> & Hout).
    exists out. by rewrite Hout, Hmid.
Qed.


Lemma scene_translate_frame (sc : scene) (v : Vector3D) :
  map (λ a, (kind a, extent a)) (scene_translate sc v)
  = map (λ a, (kind a, extent a)) sc.
Proof. unfold scene_translate. rewrite map_map. reflexivity. Qed.

Lemma classic_strategy_translate shapes v :
  map classic_solution.strategy_of (classic_solution.translate shapes v)
  = map classic_solution.strategy_of shapes.
Proof.
  induction shapes as [|[[? ? []]|[? ? []]] rest IH]; simpl; [reflexivity| |];
    by rewrite IH.
Qed.

Lemma std_function_strategy_translate shapes v :
  map std_function_solution.strategy_of (std_function_solution.translate shapes v)
  = map std_function_solution.strategy_of shapes.
Proof.
  induction shapes as [|[[? ? []]|[? ? []]] rest IH]; simpl; [reflexivity| |];
    by rewrite IH.
Qed.

Lemma manual_function_strategy_translate shapes v :
  map manual_function_solution.strategy_of (manual_function_solution.translate shapes v)
  = map manual_function_solution.strategy_of shapes.
Proof.
  induction shapes as [|[[? ? []]|[? ? []]] rest IH]; simpl; [reflexivity| |];
    by rewrite IH.
Qed.

Lemma std_variant_index_translate shapes v :
  map std_variant_solution.index (std_variant_solution.translate shapes v)
  = map std_variant_solution.index shapes.
Proof.
  induction shapes as [|[c|s] rest IH]; simpl; [reflexivity| |]; by rewrite IH.
Qed.

Lemma mpark_variant_index_translate shapes v :
  map mpark_variant_solution.index (mpark_variant_solution.translate shapes v)
  = map mpark_variant_solution.index shapes.
Proof.
  induction shapes as [|[c|s] rest IH]; simpl; [reflexivity| |]; by rewrite IH.
Qed.

(** C8. All dispatch variants implement the same translation: for every
    list of shapes and every vector [v], the [translate] of each solution
    namespace returns and leaves each shape's center at [center + v]
    (radius, side and order as they were); so two solutions applied to
    lists that show equal scenes leave lists that show equal scenes. *)
Theorem translate_agrees_across_solutions
    (S1 S2 : Solution) (shapes1 : list (Shape S1)) (shapes2 : list (Shape S2))
    (v : Vector3D) :
  S1 ∈ solutions → S2 ∈ solutions →
  ∃ out1 out2,
    translate S1 shapes1 v = Some out1
    ∧ translate S2 shapes2 v = Some out2
    ∧ scene_of S1 out1 = scene_translate (scene_of S1 shapes1) v
    ∧ scene_of S2 out2 = scene_translate (scene_of S2 shapes2) v
    ∧ (scene_of S1 shapes1 = scene_of S2 shapes2 →
       scene_of S1 out1 = scene_of S2 out2).
Proof.
  intros H1 H2.
  destruct (translate_scene S1 H1 shapes1 v) as (out1 & Ho1 & Hs1).
  destruct (translate_scene S2 H2 shapes2 v) as (out2 & Ho2 & Hs2).
  exists out1, out2. repeat split; try assumption.
  intros Heq. by rewrite Hs1, Hs2, Heq.
Qed.

(** C9. In every solution namespace [translate( shapes, v )] changes only
    centers: the number and order of the shapes, which of them are circles
    and which squares, every radius and every side stay as they were; so do
    the type tags of [enum_solution], the active alternatives of the two
    variant solutions and the strategy members of the three strategy
    solutions. *)
Theorem translate_changes_only_centers :
  (∀ S, S ∈ solutions → ∀ (shapes : list (Shape S)) (v : Vector3D),
     ∃ out, translate S shapes v = Some out
            ∧ length out = length shapes
            ∧ map (λ a, (kind a, extent a)) (scene_of S out)
              = map (λ a, (kind a, extent a)) (scene_of S shapes))
  ∧ (∀ shapes v, ∃ out, enum_solution.translate shapes v = Some out
                        ∧ map enum_solution.type out = map enum_solution.type shapes)
  ∧ (∀ shapes v, map std_variant_solution.index (std_variant_solution.translate shapes v)
                 = map std_variant_solution.index shapes)
  ∧ (∀ shapes v, map mpark_variant_solution.index (mpark_variant_solution.translate shapes v)
                 = map mpark_variant_solution.index shapes)
  ∧ (∀ shapes v, map classic_solution.strategy_of (classic_solution.translate shapes v)
                 = map classic_solution.strategy_of shapes)
  ∧ (∀ shapes v, map std_function_solution.strategy_of
                   (std_function_solution.translate shapes v)
                 = map std_function_solution.strategy_of shapes)
  ∧ (∀ shapes v, map manual_function_solution.strategy_of
                   (manual_function_solution.translate shapes v)
                 = map manual_function_solution.strategy_of shapes).
Proof.
  split_and!.
  - intros S HS shapes v.
    destruct (translate_scene S HS shapes v) as (out & Hout & Hscene).
    exists out. split; [assumption|]. split.
    + apply (f_equal length) in Hscene.
      unfold scene_of, scene_translate in Hscene.
      by rewrite !length_map in Hscene.
    + rewrite Hscene. apply scene_translate_frame.
  - intros shapes v.
    destruct (enum_translate_defined shapes v) as (out & ? & _ & ?). by exists out.
  - apply std_variant_index_translate.
  - apply mpark_variant_index_translate.
  - apply classic_strategy_translate.
  - apply std_function_strategy_translate.
  - apply manual_function_strategy_translate.
Qed.


(* ===================================================================== *)
(** ** Properties of [Function] *)
(* ===================================================================== *)

Section FunctionFacts.
Import Function.
Context {R Args : Type} (N : nat).
Implicit Types (h : heap R Args) (m : Model R Args) (o : object R Args).
Implicit Types (c p q id : nat).
Local Open Scope M_scope.

(** **** The steps of the store *)

Lemma Model_eta m : mkModel (Fn_of m) (fn_ m) = m.
Proof. by destruct m. Qed.

Lemma bind_Ok {A B} (k1 : M A) (k2 : A → M B) h b h'' :
  bind k1 k2 h = Ok b h'' ↔ ∃ a h', k1 h = Ok a h' ∧ k2 a h' = Ok b h''.
Proof.
  unfold bind. split.
  - destruct (k1 h) as [a h'| |]; [eauto | discriminate..].
  - by intros (a & h' & -> & ?).
Qed.

Lemma Concept_dtor_Ok p h u h' :
  Concept_dtor p h = Ok u h' ↔
  ∃ o, objects h !! p = Some o
       ∧ h' = mkHeap (delete p (objects h)) (next_id h)
                     (trace h ++ [Destroyed (obj_id o)]).
Proof.
  unfold Concept_dtor. destruct u. split.
  - destruct (objects h !! p) as [o|]; [|discriminate].
    intros [= <-]. eauto.
  - by intros (o & -> & ->).
Qed.

Lemma Concept_clone_Ok p q h u h' :
  Concept_clone N p q h = Ok u h' ↔
  ∃ o, objects h !! p = Some o
       ∧ fits N (Fn_of (obj_model o)) = true
       ∧ h' = mkHeap (<[q := mkObject (next_id h) (obj_model o)]> (objects h))
                     (S (next_id h)) (trace h ++ [Constructed (next_id h)]).
Proof.
  unfold Concept_clone, Model_clone, placement_new. destruct u. split.
  - destruct (objects h !! p) as [o|]; [|discriminate]. simpl.
    destruct (fits N (Fn_of (obj_model o))) eqn:Hfit; [|discriminate].
    rewrite Model_eta. intros [= <-]. eauto.
  - intros (o & -> & Hfit & ->). simpl. by rewrite Hfit, Model_eta.
Qed.

Lemma Concept_call_Ok p args h r h' :
  Concept_call p args h = Ok r h' ↔
  ∃ o, objects h !! p = Some o ∧ r = Model_call (obj_model o) args ∧ h' = h.
Proof.
  unfold Concept_call. split.
  - destruct (objects h !! p) as [o|]; [|discriminate].
    intros [= <- <-]. eauto.
  - by intros (o & -> & -> & ->).
Qed.

(** **** Counting events *)

Lemma filter_snoc_event (e e' : event) (tr : list event) :
  length (filter (.= e) (tr ++ [e']))
  = length (filter (.= e) tr) + (if decide (e' = e) then 1 else 0).
Proof.
  rewrite filter_app, length_app. f_equal.
  rewrite filter_cons, filter_nil. by destruct (decide (e' = e)).
Qed.

(** Constructing into a buffer that holds nothing keeps the books. *)
Lemma consistent_constructed h q m :
  consistent h → objects h !! q = None → consistent (constructed_in h q m).
Proof.
  intros [Hb Hd Hc1 Hc0 Hl Hdead Hf Hm] Hq.
  split; unfold constructions, destructions, constructed_in; simpl.
  - intros p o. rewrite lookup_insert. case_decide; [intros [= <-]; simpl; lia|].
    intros Hp. apply Hb in Hp. lia.
  - intros p p' o o'. rewrite !lookup_insert.
    repeat case_decide; subst; try done.
    + intros [= <-] Hp' Heq. apply Hb in Hp'. simpl in Heq. lia.
    + intros Hp [= <-] Heq. apply Hb in Hp. simpl in Heq. lia.
    + apply Hd.
  - intros id Hid. rewrite filter_snoc_event.
    destruct (decide (id = next_id h)) as [->|Hne].
    + rewrite decide_True by done.
      specialize (Hc0 (next_id h)). unfold constructions in Hc0. lia.
    + rewrite decide_False by congruence.
      specialize (Hc1 id). unfold constructions in Hc1. lia.
  - intros id Hid. rewrite filter_snoc_event.
    rewrite decide_False by (intros [=]; lia).
    specialize (Hc0 id). unfold constructions in Hc0. lia.
  - intros p o. rewrite filter_snoc_event, decide_False by done.
    rewrite lookup_insert. case_decide.
    + intros [= <-]. simpl. specialize (Hf (next_id h)).
      unfold destructions in Hf. lia.
    + intros Hp. specialize (Hl p o Hp). unfold destructions in Hl. lia.
  - intros id Hid Hnl. rewrite filter_snoc_event, decide_False by done.
    assert (id ≠ next_id h) as Hne.
    { intros ->. apply Hnl. exists q, (mkObject (next_id h) m). simpl.
      by rewrite lookup_insert_eq. }
    assert (¬ live_object h id) as Hnl'.
    { intros (p & o & Hp & Ho). apply Hnl. exists p, o. simpl.
      rewrite lookup_insert_ne; [done | congruence]. }
    specialize (Hdead id ltac:(lia) Hnl'). unfold destructions in Hdead. lia.
  - intros id Hid. rewrite filter_snoc_event, decide_False by done.
    specialize (Hf id). unfold destructions in Hf. lia.
  - intros id. rewrite filter_snoc_event, decide_False by done.
    specialize (Hm id). unfold destructions in Hm. lia.
Qed.

(** Destroying the object a buffer holds keeps the books. *)
Lemma consistent_destroyed h p o :
  consistent h → objects h !! p = Some o → consistent (destroyed_in h p o).
Proof.
  intros [Hb Hd Hc1 Hc0 Hl Hdead Hf Hm] Hp.
  split; unfold constructions, destructions, destroyed_in; simpl.
  - intros q o' Hq. apply lookup_delete_Some in Hq as [_ Hq]. eauto.
  - intros q q' o1 o2 Hq Hq'.
    apply lookup_delete_Some in Hq as [_ Hq].
    apply lookup_delete_Some in Hq' as [_ Hq']. eauto.
  - intros id Hid. rewrite filter_snoc_event, decide_False by done.
    specialize (Hc1 id). unfold constructions in Hc1. lia.
  - intros id Hid. rewrite filter_snoc_event, decide_False by done.
    specialize (Hc0 id). unfold constructions in Hc0. lia.
  - intros q o' Hq. apply lookup_delete_Some in Hq as [Hne Hq].
    rewrite filter_snoc_event, decide_False.
    + specialize (Hl q o' Hq). unfold destructions in Hl. lia.
    + intros [= Heq]. apply Hne. symmetry. by eapply Hd.
  - intros id Hid Hnl. rewrite filter_snoc_event.
    destruct (decide (obj_id o = id)) as [<-|Hne].
    + rewrite decide_True by done.
      specialize (Hl p o Hp). unfold destructions in Hl. lia.
    + rewrite decide_False by congruence.
      assert (¬ live_object h id) as Hnl'.
      { intros (q & o' & Hq & Ho). apply Hnl. exists q, o'. simpl.
        split; [|done]. apply lookup_delete_Some. split; [|done].
        intros <-. congruence. }
      specialize (Hdead id Hid Hnl'). unfold destructions in Hdead. lia.
  - intros id Hid. rewrite filter_snoc_event, decide_False.
    + specialize (Hf id). unfold destructions in Hf. lia.
    + intros [= Heq]. apply Hb in Hp. lia.
  - intros id. rewrite filter_snoc_event.
    destruct (decide (obj_id o = id)) as [<-|Hne].
    + rewrite decide_True by done.
      specialize (Hl p o Hp). unfold destructions in Hl. lia.
    + rewrite decide_False by congruence.
      specialize (Hm id). unfold destructions in Hm. lia.
Qed.

Lemma consistent_empty : consistent (@empty_heap R Args).
Proof.
  split; unfold constructions, destructions; simpl; try done; try lia.
Qed.

Lemma within_capacity_constructed h q m :
  within_capacity N h → sizeof (Fn_of m) ≤ N →
  within_capacity N (constructed_in h q m).
Proof.
  intros Hh Hm p o. unfold constructed_in. simpl.
  rewrite lookup_insert. case_decide; [by intros [= <-] | apply Hh].
Qed.

Lemma within_capacity_destroyed h p o :
  within_capacity N h → within_capacity N (destroyed_in h p o).
Proof.
  intros Hh q o' Hq. unfold destroyed_in in Hq. simpl in Hq.
  apply lookup_delete_Some in Hq as [_ Hq]. by eapply Hh.
Qed.

Lemma wrappers_fit_constructed h q m :
  wrappers_fit N h → fits N (Fn_of m) = true → wrappers_fit N (constructed_in h q m).
Proof.
  intros Hh Hm p o. unfold constructed_in. simpl.
  rewrite lookup_insert. case_decide; [by intros [= <-] | apply Hh].
Qed.

Lemma wrappers_fit_destroyed h p o :
  wrappers_fit N h → wrappers_fit N (destroyed_in h p o).
Proof.
  intros Hh q o' Hq. unfold destroyed_in in Hq. simpl in Hq.
  apply lookup_delete_Some in Hq as [_ Hq]. by eapply Hh.
Qed.

(** **** The member functions, step by step *)

Lemma Function_ctor_Ok c (T : Callable R Args) (fn : T) h :
  sizeof T ≤ N → fits N T = true →
  Function_ctor N c T fn h = Ok () (constructed_in h c (mkModel T fn)).
Proof.
  intros HT Hfit. unfold Function_ctor, bind, static_assert, placement_new.
  rewrite bool_decide_eq_true_2 by done. simpl. by rewrite Hfit.
Qed.

Lemma Function_ctor_Undefined c (T : Callable R Args) (fn : T) h :
  sizeof T ≤ N → fits N T = false → Function_ctor N c T fn h = Undefined.
Proof.
  intros HT Hfit. unfold Function_ctor, bind, static_assert, placement_new.
  rewrite bool_decide_eq_true_2 by done. simpl. by rewrite Hfit.
Qed.

Lemma Function_ctor_Rejected c (T : Callable R Args) (fn : T) h :
  N < sizeof T → Function_ctor N c T fn h = Rejected.
Proof.
  intros HT. unfold Function_ctor, bind, static_assert.
  rewrite bool_decide_eq_false_2; [done | lia].
Qed.

Lemma Function_copy_ctor_Ok c2 c1 h o1 :
  objects h !! c1 = Some o1 → fits N (Fn_of (obj_model o1)) = true →
  Function_copy_ctor N c2 c1 h = Ok () (constructed_in h c2 (obj_model o1)).
Proof.
  intros H1 Hfit. unfold Function_copy_ctor, pimpl_, buffer.
  apply Concept_clone_Ok. eauto.
Qed.

Lemma Function_dtor_Ok c h o :
  objects h !! c = Some o → Function_dtor c h = Ok () (destroyed_in h c o).
Proof.
  intros Hc. unfold Function_dtor, pimpl_, buffer. apply Concept_dtor_Ok. eauto.
Qed.

Lemma operator_call_Ok c args h o :
  objects h !! c = Some o →
  operator_call c args h = Ok (Model_call (obj_model o) args) h.
Proof.
  intros Hc. unfold operator_call, pimpl_, buffer. apply Concept_call_Ok. eauto.
Qed.

Lemma operator_call_holds c args h m :
  holds h c m → operator_call c args h = Ok (Model_call m args) h.
Proof.
  unfold holds, operator_call, Concept_call.
  destruct (objects h !! pimpl_ c) as [o|]; [|discriminate].
  by intros [= <-].
Qed.

Lemma fresh_buffer_free h : objects h !! fresh (dom (objects h)) = None.
Proof. apply not_elem_of_dom, is_fresh. Qed.

Lemma assign_Ok c2 c1 h u h' :
  assign N c2 c1 h = Ok u h' ↔
  ∃ o1 o2, objects h !! c1 = Some o1 ∧ objects h !! c2 = Some o2
           ∧ fits N (Fn_of (obj_model o1)) = true
           ∧ h' = assigned h c2 o1 o2.
Proof.
  pose proof (fresh_buffer_free h) as Hf.
  unfold assign, operator_assign, Function_copy_ctor, Function_dtor, pimpl_, buffer.
  set (f := fresh (dom (objects h))) in *.
  destruct u. rewrite bind_Ok. split.
  - intros ([] & h1 & Hclone & Hrest).
    apply Concept_clone_Ok in Hclone as (o1 & H1 & Hfit & ->).
    apply bind_Ok in Hrest as ([] & h3 & Hasg & Hdtor).
    apply bind_Ok in Hasg as ([] & h2 & Hd2 & Hclone2).
    apply Concept_dtor_Ok in Hd2 as (o2 & H2 & ->).
    apply Concept_clone_Ok in Hclone2 as (o3 & Hof & _ & ->).
    apply Concept_dtor_Ok in Hdtor as (o4 & Hof' & ->).
    simpl in *.
    assert (f ≠ c2) as Hne.
    { intros <-. by rewrite lookup_delete_eq in Hof. }
    rewrite lookup_insert_ne in H2 by done.
    rewrite lookup_delete_ne, lookup_insert_eq in Hof by done.
    rewrite lookup_insert_ne, lookup_delete_ne, lookup_insert_eq in Hof' by done.
    injection Hof as <-. injection Hof' as <-.
    exists o1, o2. by repeat split.
  - intros (o1 & o2 & H1 & H2 & Hfit & ->).
    assert (f ≠ c2) as Hne by (intros <-; congruence).
    exists (), (constructed_in h f (obj_model o1)). split.
    { apply Concept_clone_Ok. eauto. }
    apply bind_Ok.
    exists (), (constructed_in (destroyed_in (constructed_in h f (obj_model o1)) c2 o2)
                  c2 (obj_model o1)).
    split.
    + apply bind_Ok. exists (), (destroyed_in (constructed_in h f (obj_model o1)) c2 o2).
      split.
      * apply Concept_dtor_Ok. exists o2. split; [|done].
        simpl. by rewrite lookup_insert_ne.
      * apply Concept_clone_Ok. exists (mkObject (next_id h) (obj_model o1)).
        split_and!; [|done..]. simpl. by rewrite lookup_delete_ne, lookup_insert_eq.
    + apply Concept_dtor_Ok. exists (mkObject (next_id h) (obj_model o1)).
      split; [|done]. simpl.
      by rewrite lookup_insert_ne, lookup_delete_ne, lookup_insert_eq.
Qed.

Lemma assigned_objects h c2 o1 o2 :
  objects h !! c2 = Some o2 →
  objects (assigned h c2 o1 o2)
  = <[c2 := mkObject (S (next_id h)) (obj_model o1)]> (objects h).
Proof.
  intros H2. pose proof (fresh_buffer_free h) as Hf.
  unfold assigned, destroyed_in, constructed_in. simpl.
  set (f := fresh (dom (objects h))) in *.
  assert (f ≠ c2) as Hne by (intros <-; congruence).
  apply map_eq. intros i.
  destruct (decide (i = f)) as [->|Hif].
  - by rewrite lookup_delete_eq, lookup_insert_ne.
  - rewrite lookup_delete_ne by done.
    destruct (decide (i = c2)) as [->|Hic].
    + by rewrite !lookup_insert_eq.
    + by rewrite !lookup_insert_ne, lookup_delete_ne, lookup_insert_ne.
Qed.

Lemma assigned_consistent h c2 o1 o2 :
  consistent h → objects h !! c2 = Some o2 → consistent (assigned h c2 o1 o2).
Proof.
  intros Hh H2. pose proof (fresh_buffer_free h) as Hf.
  unfold assigned. set (f := fresh (dom (objects h))) in *.
  assert (f ≠ c2) as Hne by (intros <-; congruence).
  apply consistent_destroyed; [apply consistent_constructed;
    [apply consistent_destroyed; [by apply consistent_constructed|] |] |]; simpl.
  - by rewrite lookup_insert_ne.
  - by rewrite lookup_delete_eq.
  - by rewrite lookup_insert_ne, lookup_delete_ne, lookup_insert_eq.
Qed.

Lemma assigned_destructions h c2 o1 o2 :
  consistent h → objects h !! c2 = Some o2 →
  destructions (assigned h c2 o1 o2) (obj_id o2) = 1.
Proof.
  intros Hh H2. unfold destructions, assigned, destroyed_in, constructed_in. simpl.
  pose proof (destroyed_live h Hh c2 o2 H2) as H0.
  pose proof (ids_bounded h Hh c2 o2 H2) as Hb.
  unfold destructions in H0.
  rewrite !filter_snoc_event, H0.
  rewrite (decide_True (P := Destroyed (obj_id o2) = Destroyed (obj_id o2))) by done.
  rewrite !decide_False; [done | | done | done].
  intros [= Heq]. lia.
Qed.

(** **** Statements and programs *)

Lemma exec_stmt_Ok (s : stmt R Args) h u h' :
  exec_stmt N s h = Ok u h' →
  match s with
  | Construct c T fn =>
      objects h !! c = None ∧ sizeof T ≤ N ∧ fits N T = true
      ∧ h' = constructed_in h c (mkModel T fn)
  | CopyConstruct c2 c1 =>
      objects h !! c2 = None
      ∧ ∃ o1, objects h !! c1 = Some o1 ∧ fits N (Fn_of (obj_model o1)) = true
              ∧ h' = constructed_in h c2 (obj_model o1)
  | Assign c2 c1 =>
      ∃ o1 o2, objects h !! c1 = Some o1 ∧ objects h !! c2 = Some o2
               ∧ fits N (Fn_of (obj_model o1)) = true
               ∧ h' = assigned h c2 o1 o2
  | Invoke c args => is_Some (objects h !! c) ∧ h' = h
  | Destruct c => ∃ o, objects h !! c = Some o ∧ h' = destroyed_in h c o
  end.
Proof.
  destruct s as [c T fn|c2 c1|c2 c1|c args|c]; simpl.
  - intros Hs. apply bind_Ok in Hs as ([] & h1 & Hdecl & Hctor).
    unfold declare in Hdecl. destruct (objects h !! c) eqn:Hc; [discriminate|].
    injection Hdecl as <-. split; [done|].
    unfold Function_ctor, bind, static_assert, placement_new in Hctor.
    destruct (bool_decide (sizeof T ≤ N)) eqn:HT; [|discriminate].
    apply bool_decide_eq_true_1 in HT. split; [done|]. simpl in Hctor.
    destruct (fits N T) eqn:Hfit; [|discriminate]. split; [done|].
    by injection Hctor as <-.
  - intros Hs. apply bind_Ok in Hs as ([] & h1 & Hdecl & Hcopy).
    unfold declare in Hdecl. destruct (objects h !! c2) eqn:Hc; [discriminate|].
    injection Hdecl as <-. split; [done|].
    by apply Concept_clone_Ok in Hcopy.
  - apply assign_Ok.
  - intros Hs. apply bind_Ok in Hs as (r & h1 & Hcall & Hret).
    apply Concept_call_Ok in Hcall as (o & Ho & _ & ->).
    injection Hret as <-. split; [by exists o | done].
  - apply Concept_dtor_Ok.
Qed.

(** A statement that returns keeps the books, respects the capacity and
    the buffers, leaves live exactly the containers [live_after] names,
    and leaves alone every container it does not write. *)
Lemma exec_stmt_sound (s : stmt R Args) h u h' :
  exec_stmt N s h = Ok u h' →
  consistent h → within_capacity N h → wrappers_fit N h →
  consistent h' ∧ within_capacity N h' ∧ wrappers_fit N h'
  ∧ (∀ c, live h' c ↔ live_after s h c)
  ∧ (∀ c, ¬ writes s c → objects h' !! c = objects h !! c).
Proof.
  intros Hs Hc Hw Hf. apply exec_stmt_Ok in Hs.
  destruct s as [c0 T fn|c2 c1|c2 c1|c0 args|c0]; simpl in *;
    unfold live, pimpl_, buffer.
  - destruct Hs as (Hfree & HT & Hfit & ->). split_and!.
    + by apply consistent_constructed.
    + by apply within_capacity_constructed.
    + by apply wrappers_fit_constructed.
    + intros c. simpl. rewrite lookup_insert_is_Some. split.
      * intros [->|[_ ?]]; auto.
      * intros [->|?]; [by left|]. destruct (decide (c0 = c)); auto.
    + intros c Hne. simpl. by rewrite lookup_insert_ne.
  - destruct Hs as (Hfree & o1 & H1 & Hfit & ->). split_and!.
    + by apply consistent_constructed.
    + apply within_capacity_constructed; [done | by eapply Hw].
    + by apply wrappers_fit_constructed.
    + intros c. simpl. rewrite lookup_insert_is_Some. split.
      * intros [->|[_ ?]]; auto.
      * intros [->|?]; [by left|]. destruct (decide (c2 = c)); auto.
    + intros c Hne. simpl. by rewrite lookup_insert_ne.
  - destruct Hs as (o1 & o2 & H1 & H2 & Hfit & ->).
    pose proof (assigned_objects h c2 o1 o2 H2) as Hobj. split_and!.
    + by apply assigned_consistent.
    + intros p o. rewrite Hobj, lookup_insert.
      case_decide; [intros [= <-]; simpl; by eapply Hw | apply Hw].
    + intros p o. rewrite Hobj, lookup_insert.
      case_decide; [by intros [= <-] | apply Hf].
    + intros c. rewrite Hobj, lookup_insert_is_Some. split.
      * intros [<-|[_ ?]]; [by rewrite H2 | done].
      * intros ?. destruct (decide (c2 = c)); auto.
    + intros c Hne. by rewrite Hobj, lookup_insert_ne.
  - destruct Hs as (_ & ->). by split_and!.
  - destruct Hs as (o & Ho & ->). split_and!.
    + by apply consistent_destroyed.
    + by apply within_capacity_destroyed.
    + by apply wrappers_fit_destroyed.
    + intros c. simpl. rewrite lookup_delete_is_Some. split.
      * intros [? ?]; auto.
      * intros [? ?]; auto.
    + intros c Hne. simpl. by rewrite lookup_delete_ne.
Qed.

Lemma exec_sound (prog : list (stmt R Args)) h h' :
  exec N prog h = Ok () h' →
  consistent h → within_capacity N h → wrappers_fit N h →
  consistent h' ∧ within_capacity N h' ∧ wrappers_fit N h'.
Proof.
  revert h. induction prog as [|s prog IH]; intros h; simpl.
  - by intros [= <-].
  - intros Hs Hc Hw Hf. apply bind_Ok in Hs as (u & h1 & Hs & Hrest).
    destruct (exec_stmt_sound s h u h1 Hs Hc Hw Hf) as (? & ? & ? & _).
    by apply (IH h1).
Qed.

(** Stores a program reaches from the empty store. *)
Lemma reachable_sound (prog : list (stmt R Args)) h :
  exec N prog empty_heap = Ok () h →
  consistent h ∧ within_capacity N h ∧ wrappers_fit N h.
Proof.
  intros Hp. apply (exec_sound prog empty_heap h Hp).
  - apply consistent_empty.
  - intros p o. simpl. by rewrite lookup_empty.
  - intros p o. simpl. by rewrite lookup_empty.
Qed.

(** A program leaves alone every container none of its statements writes. *)
Lemma exec_frame (prog : list (stmt R Args)) c h h' :
  Forall (λ s, ¬ writes s c) prog →
  consistent h → within_capacity N h → wrappers_fit N h →
  exec N prog h = Ok () h' → objects h' !! c = objects h !! c.
Proof.
  intros Hall. revert h. induction Hall as [|s prog Hs _ IH]; intros h Hc Hw Hf; simpl.
  - by intros [= <-].
  - intros Hex. apply bind_Ok in Hex as (u & h1 & Hex & Hrest).
    destruct (exec_stmt_sound s h u h1 Hex Hc Hw Hf) as (Hc1 & Hw1 & Hf1 & _ & Hfr).
    rewrite (IH h1 Hc1 Hw1 Hf1 Hrest). by apply Hfr.
Qed.

(** No step other than the constructor's [static_assert] rejects. *)
Lemma bind_Rejected {A B} (k1 : M A) (k2 : A → M B) h :
  bind (R := R) (Args := Args) k1 k2 h = Rejected →
  k1 h = Rejected ∨ ∃ a h', k1 h = Ok a h' ∧ k2 a h' = Rejected.
Proof.
  unfold bind. destruct (k1 h) as [a h'| |]; [eauto | by left | discriminate].
Qed.

Lemma Concept_dtor_not_Rejected p h : Concept_dtor p h ≠ Rejected.
Proof. unfold Concept_dtor. by destruct (objects h !! p). Qed.

Lemma placement_new_not_Rejected q m h : placement_new N q m h ≠ Rejected.
Proof. unfold placement_new. by destruct (fits N (Fn_of m)). Qed.

Lemma Concept_clone_not_Rejected p q h : Concept_clone N p q h ≠ Rejected.
Proof.
  unfold Concept_clone, Model_clone.
  destruct (objects h !! p); [apply placement_new_not_Rejected | done].
Qed.

Lemma Concept_call_not_Rejected p args h : Concept_call p args h ≠ Rejected.
Proof. unfold Concept_call. by destruct (objects h !! p). Qed.

Lemma assign_not_Rejected c2 c1 h : assign N c2 c1 h ≠ Rejected.
Proof.
  unfold assign, operator_assign, Function_copy_ctor, Function_dtor.
  intros Hr.
  apply bind_Rejected in Hr as [Hr|(? & ? & _ & Hr)];
    [by apply Concept_clone_not_Rejected in Hr|].
  apply bind_Rejected in Hr as [Hr|(? & ? & _ & Hr)];
    [|by apply Concept_dtor_not_Rejected in Hr].
  apply bind_Rejected in Hr as [Hr|(? & ? & _ & Hr)].
  - by apply Concept_dtor_not_Rejected in Hr.
  - by apply Concept_clone_not_Rejected in Hr.
Qed.

Lemma exec_stmt_not_Rejected (s : stmt R Args) h :
  accepted N s → exec_stmt N s h ≠ Rejected.
Proof.
  destruct s as [c T fn|c2 c1|c2 c1|c args|c]; simpl; intros Hacc Hr.
  - apply bind_Rejected in Hr as [Hr|([] & h' & _ & Hr)].
    + unfold declare in Hr. by destruct (objects h !! c).
    + unfold Function_ctor in Hr.
      apply bind_Rejected in Hr as [Hr|([] & h'' & _ & Hr)].
      * unfold static_assert in Hr. by rewrite bool_decide_eq_true_2 in Hr.
      * by apply placement_new_not_Rejected in Hr.
  - apply bind_Rejected in Hr as [Hr|([] & h' & _ & Hr)].
    + unfold declare in Hr. by destruct (objects h !! c2).
    + by apply Concept_clone_not_Rejected in Hr.
  - by apply assign_not_Rejected in Hr.
  - apply bind_Rejected in Hr as [Hr|(? & ? & _ & Hr)]; [|done].
    by apply Concept_call_not_Rejected in Hr.
  - by apply Concept_dtor_not_Rejected in Hr.
Qed.

Lemma exec_not_Rejected (prog : list (stmt R Args)) h :
  Forall (accepted N) prog → exec N prog h ≠ Rejected.
Proof.
  intros Hall. revert h. induction Hall as [|s prog Hs _ IH]; intros h; simpl.
  - done.
  - intros Hr. apply bind_Rejected in Hr as [Hr|(? & h' & _ & Hr)].
    + by apply exec_stmt_not_Rejected in Hr.
    + by apply IH in Hr.
Qed.

(** **** The claims about [Function] *)

(** X11. For every callable [f] with [sizeof(f) <= N] whose wrapper the
    buffer can hold, and every argument tuple, constructing a
    [Function<R(Args...),N>] from [f] succeeds, and invoking the container
    then returns what calling [f] on the arguments returns: the same
    result and the same arguments after the call. *)
Theorem construct_then_invoke
    (T : Callable R Args) (f : T) (c : nat) (args : Args) (h : heap R Args) :
  sizeof T ≤ N → fits N T = true →
  ∃ h', Function_ctor N c T f h = Ok () h'
        ∧ holds h' c (mkModel T f)
        ∧ operator_call c args h' = Ok (call T f args) h'.
Proof.
  intros HT Hfit. exists (constructed_in h c (mkModel T f)). split_and!.
  - by apply Function_ctor_Ok.
  - unfold holds, pimpl_, buffer. simpl. by rewrite lookup_insert_eq.
  - apply (operator_call_Ok c args _ (mkObject (next_id h) (mkModel T f))).
    simpl. by rewrite lookup_insert_eq.
Qed.

(** C2. Copy-constructing a container [c2] from a container [c1] that
    holds a payload succeeds; invoking [c2] returns what invoking [c1]
    returns; [c2] holds a copy of the payload of [c1] in an object of its
    own, [c1] is left as it was, and nothing later done to other
    containers (to [c2] among them) changes what [c1] holds. *)
Theorem copy_construct_independent
    (prog : list (stmt R Args)) (h : heap R Args) (c1 c2 : nat)
    (o1 : object R Args) (args : Args) :
  exec N prog empty_heap = Ok () h →
  objects h !! pimpl_ c1 = Some o1 →
  ¬ live h c2 →
  ∃ h' o2,
    Function_copy_ctor N c2 c1 h = Ok () h'
    ∧ objects h' !! pimpl_ c2 = Some o2
    ∧ objects h' !! pimpl_ c1 = Some o1
    ∧ obj_model o2 = obj_model o1
    ∧ obj_id o2 ≠ obj_id o1
    ∧ operator_call c1 args h = Ok (Model_call (obj_model o1) args) h
    ∧ operator_call c2 args h' = Ok (Model_call (obj_model o1) args) h'
    ∧ (∀ rest h'', Forall (λ s, ¬ writes s c1) rest →
         exec N rest h' = Ok () h'' → objects h'' !! pimpl_ c1 = Some o1).
Proof.
  unfold live, pimpl_, buffer. intros Hreach H1 Hfree.
  destruct (reachable_sound prog h Hreach) as (Hc & Hw & Hf).
  assert (objects h !! c2 = None) as H2.
  { destruct (objects h !! c2) eqn:E; [|done]. destruct Hfree. by eexists. }
  assert (c2 ≠ c1) as Hne by (intros ->; congruence).
  set (h' := constructed_in h c2 (obj_model o1)).
  assert (objects h' !! c2 = Some (mkObject (next_id h) (obj_model o1))) as H2'.
  { unfold h'. simpl. by rewrite lookup_insert_eq. }
  assert (objects h' !! c1 = Some o1) as H1'.
  { unfold h'. simpl. by rewrite lookup_insert_ne. }
  exists h', (mkObject (next_id h) (obj_model o1)). split_and!; try done.
  - apply Function_copy_ctor_Ok; [done | by eapply Hf].
  - simpl. pose proof (ids_bounded h Hc c1 o1 H1). lia.
  - by apply operator_call_Ok.
  - by rewrite (operator_call_Ok c2 args h' _ H2').
  - intros rest h'' Hrest Hex. rewrite <- H1'.
    apply (exec_frame rest c1 h' h'' Hrest); [| | |done].
    + by apply consistent_constructed.
    + apply within_capacity_constructed; [done | by eapply Hw].
    + apply wrappers_fit_constructed; [done | by eapply Hf].
Qed.

(** C3. Copy-assigning a container [c1] into a container [c2] succeeds;
    afterwards invoking [c2] returns what invoking [c1] returns, and the
    payload [c2] held before, not destroyed until then, has been
    destroyed exactly once; the store is left with no payload leaked and
    none destroyed twice. *)
Theorem copy_assign_destroys_once
    (prog : list (stmt R Args)) (h : heap R Args) (c1 c2 : nat)
    (o1 o2 : object R Args) (args : Args) :
  exec N prog empty_heap = Ok () h →
  objects h !! pimpl_ c1 = Some o1 →
  objects h !! pimpl_ c2 = Some o2 →
  ∃ h',
    assign N c2 c1 h = Ok () h'
    ∧ operator_call c1 args h = Ok (Model_call (obj_model o1) args) h
    ∧ operator_call c1 args h' = Ok (Model_call (obj_model o1) args) h'
    ∧ operator_call c2 args h' = Ok (Model_call (obj_model o1) args) h'
    ∧ destructions h (obj_id o2) = 0
    ∧ destructions h' (obj_id o2) = 1
    ∧ ¬ live_object h' (obj_id o2)
    ∧ consistent h'.
Proof.
  unfold pimpl_, buffer. intros Hreach H1 H2.
  destruct (reachable_sound prog h Hreach) as (Hc & Hw & Hf).
  pose proof (assigned_objects h c2 o1 o2 H2) as Hobj.
  pose proof (assigned_consistent h c2 o1 o2 Hc H2) as Hc'.
  pose proof (assigned_destructions h c2 o1 o2 Hc H2) as Hd.
  pose proof (Hf c1 o1 H1) as Hfit.
  exists (assigned h c2 o1 o2). split_and!; try done.
  - apply assign_Ok. exists o1, o2. by split_and!.
  - by apply operator_call_Ok.
  - destruct (decide (c1 = c2)) as [->|Hne].
    + apply operator_call_holds. unfold holds, pimpl_, buffer.
      by rewrite Hobj, lookup_insert_eq.
    + apply operator_call_holds. unfold holds, pimpl_, buffer.
      by rewrite Hobj, lookup_insert_ne, H1.
  - apply operator_call_holds. unfold holds, pimpl_, buffer.
    by rewrite Hobj, lookup_insert_eq.
  - by eapply destroyed_live.
  - intros (p & o & Hp & Hid).
    pose proof (destroyed_live _ Hc' p o Hp) as H0. rewrite Hid in H0. lia.
Qed.

(** C5. Assigning a container to itself is safe: the assignment succeeds
    (nothing is used after its destruction), afterwards the container
    holds a live payload that is a copy of the one it held and answers
    every call as before, the payload it held has been destroyed exactly
    once, no payload has been destroyed twice, and the same containers
    are live. *)
Theorem self_assign_safe
    (prog : list (stmt R Args)) (h : heap R Args) (c : nat)
    (o : object R Args) (args : Args) :
  exec N prog empty_heap = Ok () h →
  objects h !! pimpl_ c = Some o →
  ∃ h' o',
    assign N c c h = Ok () h'
    ∧ objects h' !! pimpl_ c = Some o'
    ∧ obj_model o' = obj_model o
    ∧ operator_call c args h = Ok (Model_call (obj_model o) args) h
    ∧ operator_call c args h' = Ok (Model_call (obj_model o) args) h'
    ∧ destructions h' (obj_id o) = 1
    ∧ destructions h' (obj_id o') = 0
    ∧ (∀ id, destructions h' id ≤ 1)
    ∧ (∀ c', live h' c' ↔ live h c')
    ∧ consistent h'.
Proof.
  unfold live, pimpl_, buffer. intros Hreach Ho.
  destruct (reachable_sound prog h Hreach) as (Hc & Hw & Hf).
  pose proof (Hf c o Ho) as Hfit.
  pose proof (assigned_objects h c o o Ho) as Hobj.
  pose proof (assigned_consistent h c o o Hc Ho) as Hc'.
  assert (objects (assigned h c o o) !! c
          = Some (mkObject (S (next_id h)) (obj_model o))) as Ho'.
  { by rewrite Hobj, lookup_insert_eq. }
  exists (assigned h c o o), (mkObject (S (next_id h)) (obj_model o)).
  split_and!; try done.
  - apply assign_Ok. exists o, o. by split_and!.
  - by apply operator_call_Ok.
  - by rewrite (operator_call_Ok c args _ _ Ho').
  - by apply assigned_destructions.
  - apply (destroyed_live _ Hc' c _ Ho').
  - by apply destroyed_at_most_once.
  - intros c'. rewrite Hobj, lookup_insert_is_Some. split.
    + intros [<-|[_ ?]]; [by rewrite Ho | done].
    + intros ?. destruct (decide (c = c')); auto.
Qed.

(** C6. In every store a program of constructions, copies, assignments,
    calls and destructions reaches, each live container holds exactly
    one payload object, reachable through [pimpl_], constructed once,
    not destroyed, and held by no other container; every payload created
    so far was constructed once and destroyed at most once, and once all
    containers have been destroyed, exactly once. A container becomes
    live by its construction, stays live through copies, assignments
    and calls, and ceases to be live only by its destruction. *)
Theorem payload_lifetimes
    (prog : list (stmt R Args)) (h : heap R Args) :
  exec N prog empty_heap = Ok () h →
  (∀ c, live h c →
     ∃ o, objects h !! pimpl_ c = Some o
          ∧ constructions h (obj_id o) = 1
          ∧ destructions h (obj_id o) = 0
          ∧ ∀ c' o', objects h !! pimpl_ c' = Some o' →
                     obj_id o' = obj_id o → c' = c)
  ∧ (∀ id, id < next_id h →
       constructions h id = 1 ∧ destructions h id ≤ 1
       ∧ (¬ live_object h id → destructions h id = 1))
  ∧ (∀ id, next_id h ≤ id → constructions h id = 0 ∧ destructions h id = 0)
  ∧ ((∀ c, ¬ live h c) →
     ∀ id, id < next_id h → constructions h id = 1 ∧ destructions h id = 1)
  ∧ (∀ s h', exec_stmt N s h = Ok () h' → ∀ c, live h' c ↔ live_after s h c).
Proof.
  intros Hreach. destruct (reachable_sound prog h Hreach) as (Hc & Hw & Hf).
  unfold live, pimpl_, buffer. split_and!.
  - intros c [o Ho]. exists o. split_and!; try done.
    + apply constructed_once; [done | by eapply ids_bounded].
    + by eapply destroyed_live.
    + intros c' o' Ho' Hid. by eapply (ids_distinct h Hc c' c o' o).
  - intros id Hid. split_and!.
    + by apply constructed_once.
    + by apply destroyed_at_most_once.
    + by apply destroyed_dead.
  - intros id Hid. split; [by apply constructed_future | by apply destroyed_future].
  - intros Hnone id Hid. split; [by apply constructed_once|].
    apply destroyed_dead; [done..|].
    intros (p & o & Hp & _). apply (Hnone p). by exists o.
  - intros s h' Hs.
    by destruct (exec_stmt_sound s h () h' Hs Hc Hw Hf) as (_ & _ & _ & ? & _).
Qed.

(** C7. A callable type with [sizeof(Fn) > N] is rejected by the
    constructor's [static_assert], whatever the store, and nothing is
    stored; with [sizeof(Fn) <= N] the constructor is not rejected and
    goes on to place the payload's wrapper in the buffer, which stores
    the payload when the buffer can hold the wrapper and is undefined
    when it cannot. No store a
    program reaches holds an oversized payload, and a program whose
    constructions all meet [sizeof(Fn) <= N] is never rejected: copying,
    assigning, calling and destroying have no capacity check to fail. *)
Theorem capacity_checked_by_static_assert :
  (∀ c (T : Callable R Args) (fn : T) h,
     N < sizeof T → Function_ctor N c T fn h = Rejected)
  ∧ (∀ c (T : Callable R Args) (fn : T) h,
       sizeof T ≤ N →
       Function_ctor N c T fn h ≠ Rejected
       ∧ (fits N T = true →
          Function_ctor N c T fn h = Ok () (constructed_in h c (mkModel T fn)))
       ∧ (fits N T = false → Function_ctor N c T fn h = Undefined))
  ∧ (∀ (prog : list (stmt R Args)) h,
       exec N prog empty_heap = Ok () h → within_capacity N h)
  ∧ (∀ (prog : list (stmt R Args)) h,
       Forall (accepted N) prog → exec N prog h ≠ Rejected)
  ∧ (∀ c1 c2 (args : Args) (h : heap R Args),
       Function_copy_ctor N c2 c1 h ≠ Rejected
       ∧ assign N c2 c1 h ≠ Rejected
       ∧ operator_call c1 args h ≠ Rejected
       ∧ Function_dtor c1 h ≠ Rejected).
Proof.
  split_and!.
  - apply Function_ctor_Rejected.
  - intros c T fn h HT. split_and!.
    + destruct (fits N T) eqn:Hfit.
      * by rewrite Function_ctor_Ok.
      * by rewrite Function_ctor_Undefined.
    + intros Hfit. by apply Function_ctor_Ok.
    + intros Hfit. by apply Function_ctor_Undefined.
  - intros prog h Hreach. by destruct (reachable_sound prog h Hreach) as (_ & ? & _).
  - apply exec_not_Rejected.
  - intros c1 c2 args h. split_and!.
    + apply Concept_clone_not_Rejected.
    + apply assign_not_Rejected.
    + apply Concept_call_not_Rejected.
    + apply Concept_dtor_not_Rejected.
Qed.

End FunctionFacts.

(* ===================================================================== *)
(** ** The wrapper and the bytes of the buffer *)
(* ===================================================================== *)

Section BufferFacts.
Import Function manual_function_solution client.

Lemma round_up_le (n a m : nat) :
  a ≠ 0 → n ≤ m → (a | m) → round_up n a ≤ m.
Proof.
  intros Ha Hn [k ->]. unfold round_up.
  assert ((n + a - 1) / a < S k) as Hq.
  { apply Nat.Div0.div_lt_upper_bound. nia. }
  nia.
Qed.

Lemma divides_8 (a : nat) : (a | 8) → a = 1 ∨ a = 2 ∨ a = 4 ∨ a = 8.
Proof.
  intros Hdiv.
  assert (a ≤ 8) as Hle by (apply Nat.divide_pos_le; [lia | done]).
  destruct Hdiv as [k Hk].
  do 9 (destruct a as [|a]; [lia|]). lia.
Qed.

(** X12. When the capacity [N] is a multiple of 8 and the alignment of
    the payload type divides 8, the buffer can hold the wrapper of every
    payload type the [static_assert] accepts; so it does at the capacity
    [8UL] the two strategy types of the program use. *)
Theorem wrapper_fits_aligned_capacity
    {R Args : Type} (N : nat) (T : Callable R Args) :
  (8 | N) → (alignof T | 8) → sizeof T ≤ N →
  offsetof_fn_ T = 8 ∧ sizeof_Model T ≤ buffer_size N ∧ fits N T = true.
Proof.
  intros HN Ha HT.
  assert (offsetof_fn_ T = 8) as Hoff.
  { unfold offsetof_fn_, sizeof_vptr.
    destruct (divides_8 _ Ha) as [-> | [-> | [-> | ->]]]; reflexivity. }
  assert (alignof_Model T = 8) as Halign.
  { unfold alignof_Model, alignof_vptr.
    destruct (divides_8 _ Ha) as [-> | [-> | [-> | ->]]]; reflexivity. }
  assert (sizeof_Model T ≤ buffer_size N) as Hsize.
  { unfold sizeof_Model, buffer_size. rewrite Hoff, Halign.
    apply round_up_le; [lia | lia |]. destruct HN as [k ->]. exists (S k). lia. }
  split_and!; try done.
  unfold fits. rewrite Halign.
  rewrite bool_decide_eq_true_2 by done. by rewrite bool_decide_eq_true_2.
Qed.

(** C4. It is not so that the wrapper of every payload type the
    constructor accepts fits the [N+8] bytes of the buffer. With [N = 1]
    the constructor accepts [Translate] (1 byte), whose wrapper has 16
    bytes, and the buffer has 9. With [N = 16] it accepts a payload of 16
    bytes aligned to 16, whose [fn_] starts at byte 16 of the wrapper and
    ends at byte 32, and the buffer has 24. *)
Theorem wrapper_exceeds_buffer :
  (sizeof Translate_for_Circle ≤ 1
   ∧ sizeof_Model Translate_for_Circle = 16
   ∧ buffer_size 1 = 9
   ∧ fits 1 Translate_for_Circle = false)
  ∧ (sizeof Aligned_Shift_for_Circle ≤ 16
     ∧ offsetof_fn_ Aligned_Shift_for_Circle + sizeof Aligned_Shift_for_Circle = 32
     ∧ sizeof_Model Aligned_Shift_for_Circle = 32
     ∧ buffer_size 16 = 24
     ∧ fits 16 Aligned_Shift_for_Circle = false)
  ∧ ¬ (∀ (N : nat) (T : Callable unit (Circle.t * Vector3D)),
          sizeof T ≤ N → sizeof_Model T ≤ buffer_size N).
Proof.
  split_and!; try (vm_compute; first [reflexivity | lia]).
  intros Hall. specialize (Hall 1 Translate_for_Circle).
  vm_compute in Hall. lia.
Qed.

(** C1. Constructing a container from a callable with [sizeof(f) <= N]
    does not always give a container that can be invoked: at [N = 1] with
    a [Translate], and at [N = 16] with a payload of 16 bytes aligned to
    16, the [static_assert] passes and the constructor places a wrapper
    the buffer cannot hold, which is undefined. *)
Theorem construct_overflows_buffer
    (c : nat) (h1 h16 : heap unit (Circle.t * Vector3D)) (w : float * float) :
  (sizeof Translate_for_Circle ≤ 1
   ∧ Function_ctor 1 c Translate_for_Circle mkTranslate h1 = Undefined)
  ∧ (sizeof Aligned_Shift_for_Circle ≤ 16
     ∧ Function_ctor 16 c Aligned_Shift_for_Circle w h16 = Undefined).
Proof.
  split; (split; [vm_compute; lia|]);
    apply Function_ctor_Undefined; vm_compute; first [lia | reflexivity].
Qed.

Lemma wrapper_fits_aligned_capacity_witness :
  offsetof_fn_ Translate_for_Circle = 8
  ∧ sizeof_Model Translate_for_Circle ≤ buffer_size 8
  ∧ fits 8 Translate_for_Circle = true.
Proof.
  apply (wrapper_fits_aligned_capacity 8 Translate_for_Circle).
  - exists 1. reflexivity.
  - exists 8. reflexivity.
  - vm_compute. lia.
Defined.

End BufferFacts.

(* ===================================================================== *)
(** ** The claims at the client's containers and at a small scene *)
(* ===================================================================== *)

Section Witnesses.
Import Function manual_function_solution client.

Lemma construct_then_invoke_witness :
  ∃ h', Function_ctor 8 ts Translate_for_Circle mkTranslate empty_heap = Ok () h'
        ∧ holds h' ts (mkModel Translate_for_Circle mkTranslate)
        ∧ operator_call ts (the_circle, the_vector) h'
          = Ok (call Translate_for_Circle mkTranslate (the_circle, the_vector)) h'.
Proof.
  apply (construct_then_invoke 8 Translate_for_Circle mkTranslate ts
           (the_circle, the_vector) empty_heap).
  - vm_compute. lia.
  - vm_compute. reflexivity.
Defined.

Lemma make_strategy_runs :
  exec 8 make_strategy empty_heap = Ok () (store_after make_strategy).
Proof. vm_compute. reflexivity. Defined.

Lemma two_strategies_run :
  exec 8 two_strategies empty_heap = Ok () (store_after two_strategies).
Proof. vm_compute. reflexivity. Defined.

Lemma strategy_life_runs :
  exec 8 strategy_life empty_heap = Ok () (store_after strategy_life).
Proof. vm_compute. reflexivity. Defined.

Lemma copy_construct_independent_witness :
  ∃ h' o2,
    Function_copy_ctor 8 other strategy (store_after make_strategy) = Ok () h'
    ∧ objects h' !! pimpl_ other = Some o2
    ∧ objects h' !! pimpl_ strategy = Some strategy_object
    ∧ obj_model o2 = obj_model strategy_object
    ∧ obj_id o2 ≠ obj_id strategy_object
    ∧ operator_call strategy (the_circle, the_vector) (store_after make_strategy)
      = Ok (Model_call (obj_model strategy_object) (the_circle, the_vector))
           (store_after make_strategy)
    ∧ operator_call other (the_circle, the_vector) h'
      = Ok (Model_call (obj_model strategy_object) (the_circle, the_vector)) h'
    ∧ (∀ rest h'', Forall (λ s, ¬ writes s strategy) rest →
         exec 8 rest h' = Ok () h'' →
         objects h'' !! pimpl_ strategy = Some strategy_object).
Proof.
  apply (copy_construct_independent 8 make_strategy (store_after make_strategy)
           strategy other strategy_object (the_circle, the_vector)).
  - exact make_strategy_runs.
  - vm_compute. reflexivity.
  - intros [o Ho]. vm_compute in Ho. discriminate Ho.
Defined.

Lemma copy_assign_destroys_once_witness :
  ∃ h',
    assign 8 other strategy (store_after two_strategies) = Ok () h'
    ∧ operator_call strategy (the_circle, the_vector) (store_after two_strategies)
      = Ok (Model_call (obj_model strategy_object) (the_circle, the_vector))
           (store_after two_strategies)
    ∧ operator_call strategy (the_circle, the_vector) h'
      = Ok (Model_call (obj_model strategy_object) (the_circle, the_vector)) h'
    ∧ operator_call other (the_circle, the_vector) h'
      = Ok (Model_call (obj_model strategy_object) (the_circle, the_vector)) h'
    ∧ destructions (store_after two_strategies) (obj_id other_object) = 0
    ∧ destructions h' (obj_id other_object) = 1
    ∧ ¬ live_object h' (obj_id other_object)
    ∧ consistent h'.
Proof.
  apply (copy_assign_destroys_once 8 two_strategies (store_after two_strategies)
           strategy other strategy_object other_object (the_circle, the_vector)).
  - exact two_strategies_run.
  - vm_compute. reflexivity.
  - vm_compute. reflexivity.
Defined.

Lemma self_assign_safe_witness :
  ∃ h' o',
    assign 8 strategy strategy (store_after make_strategy) = Ok () h'
    ∧ objects h' !! pimpl_ strategy = Some o'
    ∧ obj_model o' = obj_model strategy_object
    ∧ operator_call strategy (the_circle, the_vector) (store_after make_strategy)
      = Ok (Model_call (obj_model strategy_object) (the_circle, the_vector))
           (store_after make_strategy)
    ∧ operator_call strategy (the_circle, the_vector) h'
      = Ok (Model_call (obj_model strategy_object) (the_circle, the_vector)) h'
    ∧ destructions h' (obj_id strategy_object) = 1
    ∧ destructions h' (obj_id o') = 0
    ∧ (∀ id, destructions h' id ≤ 1)
    ∧ (∀ c', live h' c' ↔ live (store_after make_strategy) c')
    ∧ consistent h'.
Proof.
  apply (self_assign_safe 8 make_strategy (store_after make_strategy)
           strategy strategy_object (the_circle, the_vector)).
  - exact make_strategy_runs.
  - vm_compute. reflexivity.
Defined.

Lemma payload_lifetimes_witness :
  (constructions (store_after strategy_life) 0 = 1
   ∧ destructions (store_after strategy_life) 0 = 1)
  ∧ (constructions (store_after strategy_life) 1 = 1
     ∧ destructions (store_after strategy_life) 1 = 1).
Proof.
  pose proof (payload_lifetimes 8 strategy_life (store_after strategy_life)
                strategy_life_runs) as (_ & _ & _ & Hall & _).
  assert (∀ c, ¬ live (store_after strategy_life) c) as Hnone.
  { intros c [o Ho]. vm_compute in Ho. discriminate Ho. }
  split; apply (Hall Hnone); vm_compute; lia.
Defined.

Lemma capacity_checked_by_static_assert_witness :
  Function_ctor 8 other Shift_for_Circle the_vector (store_after make_strategy)
  = Rejected.
Proof.
  apply (proj1 (capacity_checked_by_static_assert 8)).
  vm_compute. lia.
Defined.

(** The strategy of a circle moves the circle it is called with. *)
Example strategy_call_translates :
  operator_call strategy (the_circle, the_vector) (store_after make_strategy)
  = Ok ((), (Circle.mk 2 (mkVector3D 1.5 2 3) (holding mkTranslate), the_vector))
       (store_after make_strategy).
Proof. vm_compute. reflexivity. Qed.

(** After [make_strategy] the parameter [ts] is gone and [strategy] holds
    the second payload object; the first was destroyed once. *)
Example make_strategy_store :
  objects (store_after make_strategy) !! ts = None
  ∧ objects (store_after make_strategy) !! strategy = Some strategy_object
  ∧ trace (store_after make_strategy) = [Constructed 0; Constructed 1; Destroyed 0].
Proof. vm_compute. repeat split. Qed.

(** Calling a container after its destruction is undefined, and so is
    destroying it twice. *)
Example use_after_destroy :
  exec 8 (strategy_life ++ [Invoke strategy (the_circle, the_vector)]) empty_heap
  = Undefined
  ∧ exec 8 (strategy_life ++ [Destruct strategy]) empty_heap = Undefined.
Proof. vm_compute. by split. Qed.

End Witnesses.

Section SceneWitnesses.

Lemma translate_agrees_across_solutions_witness :
  ∃ out1 out2,
    translate classic [make_Circle classic 2; make_Square classic 3] client.the_vector
    = Some out1
    ∧ translate std_variant [make_Circle std_variant 2; make_Square std_variant 3]
        client.the_vector = Some out2
    ∧ scene_of classic out1
      = scene_translate
          (scene_of classic [make_Circle classic 2; make_Square classic 3]) client.the_vector
    ∧ scene_of std_variant out2
      = scene_translate
          (scene_of std_variant [make_Circle std_variant 2; make_Square std_variant 3])
          client.the_vector
    ∧ (scene_of classic [make_Circle classic 2; make_Square classic 3]
       = scene_of std_variant [make_Circle std_variant 2; make_Square std_variant 3] →
       scene_of classic out1 = scene_of std_variant out2).
Proof.
  apply (translate_agrees_across_solutions classic std_variant
           [make_Circle classic 2; make_Square classic 3]
           [make_Circle std_variant 2; make_Square std_variant 3] client.the_vector);
    unfold solutions; repeat constructor.
Defined.

Lemma translate_changes_only_centers_witness :
  ∃ out,
    translate enum [make_Circle enum 2; make_Square enum 3] client.the_vector = Some out
    ∧ length out = length [make_Circle enum 2; make_Square enum 3]
    ∧ map (λ a, (kind a, extent a)) (scene_of enum out)
      = map (λ a, (kind a, extent a))
          (scene_of enum [make_Circle enum 2; make_Square enum 3]).
Proof.
  apply (proj1 translate_changes_only_centers enum).
  unfold solutions. repeat constructor.
Defined.


(** The eight solutions on one scene: a fresh circle and a fresh square,
    translated by [{1,2,3}] twice. *)
Example eight_solutions_on_one_scene :
  Forall (λ S, scene_of S <$> translate_all S [make_Circle S 2; make_Square S 3]
                                [client.the_vector; client.the_vector]
               = Some [mkView a_circle 2 (mkVector3D 2 4 6);
                       mkView a_square 3 (mkVector3D 2 4 6)])
         solutions.
Proof. repeat constructor. Qed.

End SceneWitnesses.

(* ===================================================================== *)
(** ** Properties of the benchmark blocks *)
(* ===================================================================== *)

Section BenchmarkFacts.
Context {gen : Type} (dist : gen → float * gen).

(** What a fresh shape shows. *)
Lemma view_make (Sol : Solution) :
  Sol ∈ solutions →
  ∀ r, view Sol (make_Circle Sol r) = mkView a_circle r Vector3D_zero
       ∧ view Sol (make_Square Sol r) = mkView a_square r Vector3D_zero.
Proof.
  revert Sol.
  apply (in_solutions_cases
           (λ Sol, ∀ r, view Sol (make_Circle Sol r) = mkView a_circle r Vector3D_zero
                        ∧ view Sol (make_Square Sol r) = mkView a_square r Vector3D_zero));
    by split.
Qed.

Lemma build_shapes_scene (Sol : Solution) :
  Sol ∈ solutions →
  ∀ n rng (shapes : list (Shape Sol)),
    scene_of Sol (build_shapes dist Sol n rng shapes).1
    = scene_of Sol shapes ++ map fresh_view (drawn_shapes dist n rng).1
    ∧ (build_shapes dist Sol n rng shapes).2 = (drawn_shapes dist n rng).2.
Proof.
  intros HS n. induction n as [|n IH]; intros rng shapes; simpl.
  - by rewrite app_nil_r.
  - destruct (dist rng) as [d rng1]. destruct (dist rng1) as [r rng2].
    destruct (view_make Sol HS r) as [Hc Hs].
    destruct (drawn_shapes dist n rng2) as [rest rng'] eqn:Hrest.
    destruct (d <? 0.5)%float; simpl.
    + destruct (IH rng2 (shapes ++ [make_Circle Sol r])) as [-> ->].
      rewrite Hrest. unfold scene_of. rewrite map_app, <- app_assoc. simpl.
      by rewrite Hc.
    + destruct (IH rng2 (shapes ++ [make_Square Sol r])) as [-> ->].
      rewrite Hrest. unfold scene_of. rewrite map_app, <- app_assoc. simpl.
      by rewrite Hs.
Qed.

Lemma drawn_shapes_length n rng : length (drawn_shapes dist n rng).1 = n.
Proof.
  revert rng. induction n as [|n IH]; intros rng; simpl; [done|].
  destruct (dist rng) as [d rng1]. destruct (dist rng1) as [r rng2].
  specialize (IH rng2). destruct (drawn_shapes dist n rng2). simpl in *. by rewrite IH.
Qed.

(** The timed loop is [translate] applied for the drawn vectors in turn. *)
Lemma run_steps_translate_all (Sol : Solution) steps rng (shapes : list (Shape Sol)) :
  run_steps dist Sol steps rng shapes
  = (λ out, (out, (drawn_vectors dist steps rng).2))
      <$> translate_all Sol shapes (drawn_vectors dist steps rng).1.
Proof.
  revert rng shapes. induction steps as [|k IH]; intros rng shapes; simpl; [done|].
  destruct (dist rng) as [a rng1]. destruct (dist rng1) as [b rng2].
  destruct (drawn_vectors dist k rng2) as [rest rng'] eqn:Hrest. simpl.
  destruct (translate Sol shapes (mkVector3D a b 0)) as [shapes'|]; simpl; [|done].
  by rewrite IH, Hrest.
Qed.

Lemma drawn_vectors_flat steps rng :
  Forall (λ v, z v = 0%float) (drawn_vectors dist steps rng).1.
Proof.
  revert rng. induction steps as [|k IH]; intros rng; simpl; [constructor|].
  destruct (dist rng) as [a rng1]. destruct (dist rng1) as [b rng2].
  specialize (IH rng2). destruct (drawn_vectors dist k rng2). by constructor.
Qed.

Lemma fold_plus_flat (vs : list Vector3D) (p : Vector3D) :
  Forall (λ v, z v = 0%float) vs → z p = 0%float →
  z (fold_left operator_plus vs p) = 0%float.
Proof.
  intros Hvs. revert p. induction Hvs as [|v vs Hv _ IH]; intros p Hp; simpl; [done|].
  apply IH. simpl. by rewrite Hp, Hv.
Qed.

Lemma fold_scene_translate (vs : list Vector3D) (sc : scene) :
  fold_left scene_translate vs sc
  = map (λ a, mkView (kind a) (extent a) (fold_left operator_plus vs (position a))) sc.
Proof.
  revert sc. induction vs as [|v vs IH]; intros sc; simpl.
  - induction sc as [|[] sc IHsc]; simpl; [done | by rewrite <- IHsc].
  - rewrite IH. unfold scene_translate. by rewrite map_map.
Qed.

(** A block returns, and the scene it leaves is decided by the draws
    alone: the shapes the first loop drew, each at the sum of the vectors
    the timed loop drew. *)
Lemma benchmark_block_scene (Sol : Solution) n steps rng :
  Sol ∈ solutions →
  ∃ shapes,
    benchmark_block dist Sol n steps rng
    = Some (shapes, (drawn_vectors dist steps (drawn_shapes dist n rng).2).2)
    ∧ scene_of Sol shapes
      = map (λ ke, mkView ke.1 ke.2
                     (Vector3D_sum (drawn_vectors dist steps (drawn_shapes dist n rng).2).1))
            (drawn_shapes dist n rng).1.
Proof.
  intros HS. unfold benchmark_block.
  destruct (build_shapes_scene Sol HS n rng []) as [Hscene Hrng].
  destruct (build_shapes dist Sol n rng []) as [shapes0 rng0]. simpl in *. subst rng0.
  rewrite run_steps_translate_all.
  destruct (translate_all_scene Sol HS
              (drawn_vectors dist steps (drawn_shapes dist n rng).2).1 shapes0)
    as (out & -> & Hout).
  exists out. split; [done|].
  rewrite Hout, Hscene, fold_scene_translate, map_map. reflexivity.
Qed.

(** X1. Whatever the generator, a block of [main] with [n] shapes and
    [steps] steps returns; it leaves [n] shapes, of the kinds and sizes
    the first loop drew, all at one center: the sum of the drawn vectors,
    whose [z] is zero; and it leaves the generator where the draws left
    it. *)
Theorem benchmark_block_result (Sol : Solution) (n steps : nat) (rng : gen) :
  Sol ∈ solutions →
  ∃ shapes,
    benchmark_block dist Sol n steps rng
    = Some (shapes, (drawn_vectors dist steps (drawn_shapes dist n rng).2).2)
    ∧ length shapes = n
    ∧ scene_of Sol shapes
      = map (λ ke, mkView ke.1 ke.2
                     (Vector3D_sum (drawn_vectors dist steps (drawn_shapes dist n rng).2).1))
            (drawn_shapes dist n rng).1
    ∧ z (Vector3D_sum (drawn_vectors dist steps (drawn_shapes dist n rng).2).1) = 0%float.
Proof.
  intros HS. destruct (benchmark_block_scene Sol n steps rng HS) as (shapes & Hrun & Hscene).
  exists shapes. split_and!; try done.
  - apply (f_equal length) in Hscene. unfold scene_of in Hscene.
    rewrite !length_map in Hscene. by rewrite Hscene, drawn_shapes_length.
  - apply fold_plus_flat; [apply drawn_vectors_flat | done].
Qed.

(** X2. From the same state of the generator, the blocks of any two
    solutions return, leave lists that show equal scenes, and leave the
    generator in the same state. *)
Theorem benchmark_blocks_agree (S1 S2 : Solution) (n steps : nat) (rng : gen) :
  S1 ∈ solutions → S2 ∈ solutions →
  ∃ shapes1 shapes2 rng',
    benchmark_block dist S1 n steps rng = Some (shapes1, rng')
    ∧ benchmark_block dist S2 n steps rng = Some (shapes2, rng')
    ∧ scene_of S1 shapes1 = scene_of S2 shapes2.
Proof.
  intros H1 H2.
  destruct (benchmark_block_scene S1 n steps rng H1) as (shapes1 & Hr1 & Hs1).
  destruct (benchmark_block_scene S2 n steps rng H2) as (shapes2 & Hr2 & Hs2).
  exists shapes1, shapes2, (drawn_vectors dist steps (drawn_shapes dist n rng).2).2.
  split_and!; try done. by rewrite Hs1, Hs2.
Qed.

End BenchmarkFacts.

(* ===================================================================== *)
(** ** More properties of the translations *)
(* ===================================================================== *)

Section TranslateFacts.

Ltac app_by_induction l1 :=
  induction l1 as [|? ? IH]; simpl; [reflexivity | by rewrite IH].

Lemma enum_translate_app l1 l2 v :
  enum_solution.translate (l1 ++ l2) v
  = l1' ← enum_solution.translate l1 v;
    l2' ← enum_solution.translate l2 v;
    Some (l1' ++ l2').
Proof.
  induction l1 as [|s l1 IH]; simpl.
  - by destruct (enum_solution.translate l2 v).
  - destruct (enum_solution.translate_switch s v) as [s'|]; simpl; [|done].
    rewrite IH. destruct (enum_solution.translate l1 v) as [l1'|]; simpl; [|done].
    by destruct (enum_solution.translate l2 v).
Qed.

(** X3. In every solution [translate] returns the empty list for the
    empty list and works shape by shape: translating a concatenation gives
    the concatenation of the translated parts. *)
Theorem translate_app (Sol : Solution) (l1 l2 : list (Shape Sol)) (v : Vector3D) :
  Sol ∈ solutions →
  translate Sol [] v = Some []
  ∧ translate Sol (l1 ++ l2) v
    = l1' ← translate Sol l1 v; l2' ← translate Sol l2 v; Some (l1' ++ l2').
Proof.
  intros HS. revert Sol HS l1 l2.
  apply (in_solutions_cases
           (λ Sol, ∀ l1 l2 : list (Shape Sol),
              translate Sol [] v = Some []
              ∧ translate Sol (l1 ++ l2) v
                = l1' ← translate Sol l1 v; l2' ← translate Sol l2 v; Some (l1' ++ l2')));
    intros l1 l2; (split; [reflexivity|]); simpl;
    try (f_equal; app_by_induction l1).
  apply enum_translate_app.
Qed.

Lemma SFadd_comm prec emax (a b : SpecFloat.spec_float) :
  SpecFloat.SFadd prec emax a b = SpecFloat.SFadd prec emax b a.
Proof.
  destruct a as [[]| []| |sa ma ea], b as [[]| []| |sb mb eb]; try reflexivity.
  unfold SpecFloat.SFadd. cbv zeta.
  rewrite (Z.min_comm eb ea).
  by rewrite (Z.add_comm (SpecFloat.cond_Zopp sb _)).
Qed.

Lemma float_add_comm (a b : float) : (a + b = b + a)%float.
Proof.
  apply FloatAxioms.Prim2SF_inj.
  rewrite !FloatAxioms.add_spec. apply SFadd_comm.
Qed.

(** X4. [operator+] on [Vector3D] is commutative, in binary64 arithmetic. *)
Theorem operator_plus_comm (a b : Vector3D) : a +v b = b +v a.
Proof.
  unfold operator_plus. f_equal; apply float_add_comm.
Qed.

(** X5. The order of translations matters, and two translations are not
    one translation by the sum: there are a shape and vectors for which
    translating in the other order, or once by the sum, leaves another
    center. *)
Theorem translations_neither_commute_nor_merge :
  ∃ (shape : std_variant_solution.Shape) (v1 v2 w1 w2 : Vector3D),
    translate_all std_variant [shape] [v1; v2] ≠ translate_all std_variant [shape] [v2; v1]
    ∧ translate_all std_variant [shape] [w1; w2]
      ≠ translate std_variant [shape] (w1 +v w2).
Proof.
  exists (std_variant_solution.alt_Circle
            (std_variant_solution.Circle.mk 1 (mkVector3D 1e16 0 0))),
    (mkVector3D (-1e16) 0 0), (mkVector3D 1 0 0),
    (mkVector3D 1 0 0), (mkVector3D 1 0 0).
  set (first_x := λ o : option (list std_variant_solution.Shape),
         match o with
         | Some [std_variant_solution.alt_Circle c] =>
             Some ((x (std_variant_solution.Circle.center c) =? 0)%float,
                   (x (std_variant_solution.Circle.center c) =? 1e16)%float)
         | _ => None
         end).
  split; intros Heq; apply (f_equal first_x) in Heq; vm_compute in Heq; discriminate Heq.
Qed.

End TranslateFacts.

(* ===================================================================== *)
(** ** More properties of [Function] *)
(* ===================================================================== *)

Section FunctionMore.
Import Function Accounting.
Context {R Args : Type} (N : nat).
Implicit Types (h : heap R Args) (m : Model R Args) (o : object R Args).
Implicit Types (c p q id : nat).

Lemma not_live_None h c : ¬ live h c → objects h !! c = None.
Proof.
  unfold live, pimpl_, buffer. intros Hn.
  destruct (objects h !! c) eqn:E; [|done]. destruct Hn. by eexists.
Qed.

Lemma totals_snoc (e : event) h q (objs : gmap nat (object R Args)) n :
  constructed_total (mkHeap objs n (trace h ++ [e]))
  = constructed_total h + (if is_construction e then 1 else 0)
  ∧ destroyed_total (mkHeap objs n (trace h ++ [e]))
    = destroyed_total h + (if is_destruction e then 1 else 0).
Proof.
  unfold constructed_total, destroyed_total. simpl.
  rewrite !filter_app, !length_app. by destruct e.
Qed.

Lemma balanced_constructed h q m :
  balanced h → objects h !! q = None → balanced (constructed_in h q m).
Proof.
  intros [Hn Hs] Hq. unfold balanced, constructed_in.
  destruct (totals_snoc (Constructed (next_id h)) h q
              (<[q := mkObject (next_id h) m]> (objects h)) (S (next_id h))) as [-> ->].
  simpl. rewrite map_size_insert_None by done. lia.
Qed.

Lemma balanced_destroyed h p o :
  balanced h → objects h !! p = Some o → balanced (destroyed_in h p o).
Proof.
  intros [Hn Hs] Hp. unfold balanced, destroyed_in.
  destruct (totals_snoc (Destroyed (obj_id o)) h p
              (delete p (objects h)) (next_id h)) as [-> ->].
  simpl.
  assert (size (objects h) = S (size (delete p (objects h)))) as Hsize.
  { rewrite <- (insert_delete_id (objects h) p o Hp) at 1.
    apply map_size_insert_None, lookup_delete_eq. }
  lia.
Qed.

Lemma exec_stmt_balanced (s : stmt R Args) h u h' :
  exec_stmt N s h = Ok u h' → balanced h → balanced h'.
Proof.
  intros Hs Hb. apply exec_stmt_Ok in Hs.
  destruct s as [c0 T fn|c2 c1|c2 c1|c0 args|c0]; simpl in *.
  - destruct Hs as (Hfree & _ & _ & ->). by apply balanced_constructed.
  - destruct Hs as (Hfree & o1 & _ & _ & ->). by apply balanced_constructed.
  - destruct Hs as (o1 & o2 & H1 & H2 & _ & ->).
    pose proof (fresh_buffer_free h) as Hf.
    unfold assigned. set (f := fresh (dom (objects h))) in *.
    assert (f ≠ c2) as Hne by (intros <-; congruence).
    apply balanced_destroyed; [apply balanced_constructed;
      [apply balanced_destroyed; [by apply balanced_constructed|] |] |]; simpl.
    + by rewrite lookup_insert_ne.
    + by rewrite lookup_delete_eq.
    + by rewrite lookup_insert_ne, lookup_delete_ne, lookup_insert_eq.
  - by destruct Hs as (_ & ->).
  - destruct Hs as (o & Ho & ->). by apply balanced_destroyed.
Qed.

(** X7. In every store a program reaches from the empty store, the
    payload objects constructed so far are as many as the identities
    handed out, and those not yet destroyed are as many as the containers
    that hold a payload. *)
Theorem payload_accounting (prog : list (stmt R Args)) h :
  exec N prog empty_heap = Ok () h →
  constructed_total h = next_id h
  ∧ constructed_total h = destroyed_total h + size (objects h).
Proof.
  assert (∀ h0, balanced h0 → exec N prog h0 = Ok () h → balanced h) as Hgen.
  { clear. induction prog as [|s prog IH]; intros h0 Hb; simpl.
    - by intros [= <-].
    - intros Hs. apply bind_Ok in Hs as (u & h1 & Hs & Hrest).
      apply (IH h1); [|done]. by eapply exec_stmt_balanced. }
  apply Hgen. split; reflexivity.
Qed.

(** X8. In whatever store, a copy assignment between live containers
    whose source holds a wrapper the buffer can hold (as every store a
    program reached does) costs two payload constructions and two
    destructions, in this order: the parameter object is constructed, the
    old payload of the target is destroyed, the new payload is
    constructed in its place, and the parameter object is destroyed; only
    the target's buffer is changed. *)
Theorem assignment_events (h : heap R Args) c1 c2 o1 o2 :
  objects h !! pimpl_ c1 = Some o1 →
  objects h !! pimpl_ c2 = Some o2 →
  fits N (Fn_of (obj_model o1)) = true →
  ∃ h', assign N c2 c1 h = Ok () h'
        ∧ trace h' = trace h ++ [Constructed (next_id h); Destroyed (obj_id o2);
                                 Constructed (S (next_id h)); Destroyed (next_id h)]
        ∧ next_id h' = S (S (next_id h))
        ∧ objects h'
          = <[pimpl_ c2 := mkObject (S (next_id h)) (obj_model o1)]> (objects h).
Proof.
  unfold pimpl_, buffer. intros H1 H2 Hfit.
  exists (assigned h c2 o1 o2). split_and!.
  - apply assign_Ok. exists o1, o2. by split_and!.
  - unfold assigned, destroyed_in, constructed_in. simpl. by rewrite <- !app_assoc.
  - reflexivity.
  - by apply assigned_objects.
Qed.

End FunctionMore.

Section StrategyMember.
Import Function Accounting manual_function_solution.

(** X10. Constructing a [Circle] or a [Square] of
    [manual_function_solution] from a [Translate] passes the capacity
    check and runs; it leaves the parameter destroyed and the member
    [strategy] holding the callable, at the cost of two payload
    constructions and one destruction, with every other container as it
    was; and calling the member on a shape and a vector returns the shape
    with its center at [center + v] and its other members as they were,
    which is what [translate] of the shape returns, and the vector as it
    was. *)
Theorem strategy_member_installed :
  (∀ (h : heap unit (Circle.t * Vector3D)) ts strategy fn,
     ¬ live h ts → ¬ live h strategy → ts ≠ strategy →
     ∃ h', exec 8 (Circle_ctor_strategy ts strategy fn) h = Ok () h'
           ∧ ¬ live h' ts
           ∧ holds h' strategy (mkModel Translate_for_Circle fn)
           ∧ trace h' = trace h ++ [Constructed (next_id h);
                                    Constructed (S (next_id h));
                                    Destroyed (next_id h)]
           ∧ (∀ c, c ≠ strategy → objects h' !! c = objects h !! c)
           ∧ (∀ circle v,
                operator_call strategy (circle, v) h'
                = Ok ((), (Circle.mk (Circle.radius circle) (Circle.center circle +v v)
                             (Circle.strategy circle), v)) h'
                ∧ Circle_translate circle v
                  = Circle.mk (Circle.radius circle) (Circle.center circle +v v)
                      (Circle.strategy circle)))
  ∧ (∀ (h : heap unit (Square.t * Vector3D)) ts strategy fn,
       ¬ live h ts → ¬ live h strategy → ts ≠ strategy →
       ∃ h', exec 8 (Square_ctor_strategy ts strategy fn) h = Ok () h'
             ∧ ¬ live h' ts
             ∧ holds h' strategy (mkModel Translate_for_Square fn)
             ∧ trace h' = trace h ++ [Constructed (next_id h);
                                      Constructed (S (next_id h));
                                      Destroyed (next_id h)]
             ∧ (∀ c, c ≠ strategy → objects h' !! c = objects h !! c)
             ∧ (∀ square v,
                  operator_call strategy (square, v) h'
                  = Ok ((), (Square.mk (Square.side square) (Square.center square +v v)
                               (Square.strategy square), v)) h'
                  ∧ Square_translate square v
                    = Square.mk (Square.side square) (Square.center square +v v)
                        (Square.strategy square))).
Proof.
  split; intros h ts strategy fn Hts Hstr Hne;
    apply not_live_None in Hts; apply not_live_None in Hstr.
  - set (m := mkModel Translate_for_Circle fn).
    set (h1 := constructed_in h ts m).
    set (h2 := constructed_in h1 strategy m).
    set (h3 := destroyed_in h2 ts (mkObject (next_id h) m)).
    assert (objects h3 !! strategy = Some (mkObject (S (next_id h)) m)) as Hlook.
    { simpl. by rewrite lookup_delete_ne, lookup_insert_eq. }
    exists h3. split_and!.
    + simpl. unfold bind, declare. rewrite Hts.
      rewrite (Function_ctor_Ok 8 ts Translate_for_Circle fn h)
        by (vm_compute; first [lia | reflexivity]).
      fold m h1. replace (objects h1 !! strategy) with (@None (object unit (Circle.t * Vector3D)))
        by (simpl; by rewrite lookup_insert_ne).
      rewrite (Function_copy_ctor_Ok 8 strategy ts h1 (mkObject (next_id h) m))
        by first [simpl; by rewrite lookup_insert_eq | vm_compute; reflexivity].
      change (constructed_in h1 strategy _) with h2.
      rewrite (Function_dtor_Ok ts h2 (mkObject (next_id h) m))
        by (simpl; by rewrite lookup_insert_ne, lookup_insert_eq).
      reflexivity.
    + unfold live, pimpl_, buffer. simpl. rewrite lookup_delete_eq. by intros [? ?].
    + unfold holds, pimpl_, buffer. by rewrite Hlook.
    + simpl. by rewrite <- !app_assoc.
    + intros c Hc. simpl. destruct (decide (c = ts)) as [->|Hcts].
      * by rewrite lookup_delete_eq.
      * by rewrite lookup_delete_ne, !lookup_insert_ne.
    + intros [r ctr [fn']] v.
      by rewrite (operator_call_Ok strategy _ h3 _ Hlook).
  - set (m := mkModel Translate_for_Square fn).
    set (h1 := constructed_in h ts m).
    set (h2 := constructed_in h1 strategy m).
    set (h3 := destroyed_in h2 ts (mkObject (next_id h) m)).
    assert (objects h3 !! strategy = Some (mkObject (S (next_id h)) m)) as Hlook.
    { simpl. by rewrite lookup_delete_ne, lookup_insert_eq. }
    exists h3. split_and!.
    + simpl. unfold bind, declare. rewrite Hts.
      rewrite (Function_ctor_Ok 8 ts Translate_for_Square fn h)
        by (vm_compute; first [lia | reflexivity]).
      fold m h1. replace (objects h1 !! strategy) with (@None (object unit (Square.t * Vector3D)))
        by (simpl; by rewrite lookup_insert_ne).
      rewrite (Function_copy_ctor_Ok 8 strategy ts h1 (mkObject (next_id h) m))
        by first [simpl; by rewrite lookup_insert_eq | vm_compute; reflexivity].
      change (constructed_in h1 strategy _) with h2.
      rewrite (Function_dtor_Ok ts h2 (mkObject (next_id h) m))
        by (simpl; by rewrite lookup_insert_ne, lookup_insert_eq).
      reflexivity.
    + unfold live, pimpl_, buffer. simpl. rewrite lookup_delete_eq. by intros [? ?].
    + unfold holds, pimpl_, buffer. by rewrite Hlook.
    + simpl. by rewrite <- !app_assoc.
    + intros c Hc. simpl. destruct (decide (c = ts)) as [->|Hcts].
      * by rewrite lookup_delete_eq.
      * by rewrite lookup_delete_ne, !lookup_insert_ne.
    + intros [r ctr [fn']] v.
      by rewrite (operator_call_Ok strategy _ h3 _ Hlook).
Qed.

End StrategyMember.

(* ===================================================================== *)
(** ** The further properties at small inputs *)
(* ===================================================================== *)

Section BenchmarkWitnesses.

Lemma benchmark_block_result_witness :
  ∃ shapes,
    benchmark_block tape_dist enum 2 2 [0.25; 2; 0.75; 3; 1; 2; 1; 2]%float
    = Some (shapes,
            (drawn_vectors tape_dist 2
               (drawn_shapes tape_dist 2 [0.25; 2; 0.75; 3; 1; 2; 1; 2]%float).2).2)
    ∧ length shapes = 2
    ∧ scene_of enum shapes
      = map (λ ke, mkView ke.1 ke.2
                     (Vector3D_sum
                        (drawn_vectors tape_dist 2
                           (drawn_shapes tape_dist 2
                              [0.25; 2; 0.75; 3; 1; 2; 1; 2]%float).2).1))
            (drawn_shapes tape_dist 2 [0.25; 2; 0.75; 3; 1; 2; 1; 2]%float).1
    ∧ z (Vector3D_sum
           (drawn_vectors tape_dist 2
              (drawn_shapes tape_dist 2 [0.25; 2; 0.75; 3; 1; 2; 1; 2]%float).2).1)
      = 0%float.
Proof.
  apply (benchmark_block_result tape_dist enum 2 2).
  unfold solutions. repeat constructor.
Defined.

Lemma benchmark_blocks_agree_witness :
  ∃ shapes1 shapes2 rng',
    benchmark_block tape_dist classic 2 2 [0.25; 2; 0.75; 3; 1; 2; 1; 2]%float
    = Some (shapes1, rng')
    ∧ benchmark_block tape_dist mpark_variant 2 2 [0.25; 2; 0.75; 3; 1; 2; 1; 2]%float
      = Some (shapes2, rng')
    ∧ scene_of classic shapes1 = scene_of mpark_variant shapes2.
Proof.
  apply (benchmark_blocks_agree tape_dist classic mpark_variant 2 2);
    unfold solutions; repeat constructor.
Defined.

(** A block run on a tape: two shapes (a circle of radius 2, a square of
    side 3) and two steps by [{1,2,0}] leave both shapes at [{2,4,0}] and
    the tape used up. *)
Example benchmark_block_on_tape :
  (λ r, (scene_of manual_function r.1, r.2))
    <$> benchmark_block tape_dist manual_function 2 2
          [0.25; 2; 0.75; 3; 1; 2; 1; 2]%float
  = Some ([mkView a_circle 2 (mkVector3D 2 4 0); mkView a_square 3 (mkVector3D 2 4 0)], []).
Proof. reflexivity. Qed.

Lemma translate_app_witness :
  translate visitor [] client.the_vector = Some []
  ∧ translate visitor ([make_Circle visitor 2] ++ [make_Square visitor 3]) client.the_vector
    = l1' ← translate visitor [make_Circle visitor 2] client.the_vector;
      l2' ← translate visitor [make_Square visitor 3] client.the_vector;
      Some (l1' ++ l2').
Proof.
  apply (translate_app visitor).
  unfold solutions. repeat constructor.
Defined.

End BenchmarkWitnesses.

Section FunctionMoreWitnesses.
Import Function Accounting manual_function_solution client.

Lemma payload_accounting_witness :
  constructed_total (store_after two_strategies) = next_id (store_after two_strategies)
  ∧ constructed_total (store_after two_strategies)
    = destroyed_total (store_after two_strategies)
      + size (objects (store_after two_strategies)).
Proof.
  apply (payload_accounting 8 two_strategies (store_after two_strategies)).
  vm_compute. reflexivity.
Defined.

Lemma assignment_events_witness :
  ∃ h', assign 8 other strategy (store_after two_strategies) = Ok () h'
        ∧ trace h'
          = trace (store_after two_strategies)
            ++ [Constructed (next_id (store_after two_strategies));
                Destroyed (obj_id other_object);
                Constructed (S (next_id (store_after two_strategies)));
                Destroyed (next_id (store_after two_strategies))]
        ∧ next_id h' = S (S (next_id (store_after two_strategies)))
        ∧ objects h'
          = <[pimpl_ other := mkObject (S (next_id (store_after two_strategies)))
                                (obj_model strategy_object)]>
              (objects (store_after two_strategies)).
Proof.
  apply (assignment_events 8 (store_after two_strategies) strategy other
           strategy_object other_object); vm_compute; reflexivity.
Defined.

Lemma strategy_member_installed_witness :
  ∃ h', exec 8 (Circle_ctor_strategy ts strategy mkTranslate) empty_heap = Ok () h'
        ∧ ¬ live h' ts
        ∧ holds h' strategy (mkModel Translate_for_Circle mkTranslate)
        ∧ trace h' = trace (@empty_heap unit (Circle.t * Vector3D))
                     ++ [Constructed (next_id (@empty_heap unit (Circle.t * Vector3D)));
                         Constructed (S (next_id (@empty_heap unit (Circle.t * Vector3D))));
                         Destroyed (next_id (@empty_heap unit (Circle.t * Vector3D)))]
        ∧ (∀ c, c ≠ strategy →
                objects h' !! c = objects (@empty_heap unit (Circle.t * Vector3D)) !! c)
        ∧ (∀ circle v,
             operator_call strategy (circle, v) h'
             = Ok ((), (Circle.mk (Circle.radius circle) (Circle.center circle +v v)
                          (Circle.strategy circle), v)) h'
             ∧ Circle_translate circle v
               = Circle.mk (Circle.radius circle) (Circle.center circle +v v)
                   (Circle.strategy circle)).
Proof.
  apply (proj1 strategy_member_installed empty_heap ts strategy mkTranslate).
  - intros [o Ho]. vm_compute in Ho. discriminate Ho.
  - intros [o Ho]. vm_compute in Ho. discriminate Ho.
  - vm_compute. discriminate.
Defined.

End FunctionMoreWitnesses.
